(** * dxlog_mult_listener: field extractor, trigger rule and listener loop

    A shallow embedding of [listener.c].  C strings and raw buffers are
    lists of bytes ([ascii]); a read past the end of a list yields the NUL
    byte, so a list stands for the bytes of a C string up to (and possibly
    including) its terminator.  Writes into a destination buffer are
    checked: a write outside the buffer makes the operation fail with
    [None].  Console output and calls with an effect are recorded as a
    trace of events. *)

From Stdlib Require Import Ascii String.
From Stdlib Require Import List ZArith NArith Lia Bool.
From Stdlib Require Floats.PrimFloat Floats.FloatOps Floats.SpecFloat.
From Stdlib Require Numbers.Cyclic.Int63.Uint63.
Import ListNotations.

Local Open Scope nat_scope.
Local Open Scope list_scope.

(* ================================================================== *)
(** ** Bytes and the C library functions the program uses              *)
(* ================================================================== *)

Abbreviation bytes := (list ascii).

Definition NUL : ascii := Ascii.zero.

(** A C string literal, without its terminator. *)
Definition lit (s : string) : bytes := list_ascii_of_string s.

(** [*p]: the byte a pointer designates. *)
Definition peek (p : bytes) : ascii := hd NUL p.

(** [tolower] of the C locale (the program never calls [setlocale]). *)
Definition tolower (c : ascii) : ascii :=
  let n := N_of_ascii c in
  if ((65 <=? n) && (n <=? 90))%N then ascii_of_N (n + 32) else c.

(** [strncasecmp(s1, s2, n)]: compares at most [n] bytes, folded to lower
    case, and stops at the first difference or at a common NUL. *)
Fixpoint strncasecmp (s1 s2 : bytes) (n : nat) : Z :=
  match n with
  | O => 0%Z
  | S n' =>
      let c1 := tolower (peek s1) in
      let c2 := tolower (peek s2) in
      if Ascii.eqb c1 c2
      then if Ascii.eqb c1 NUL then 0%Z
           else strncasecmp (tl s1) (tl s2) n'
      else (Z.of_N (N_of_ascii c1) - Z.of_N (N_of_ascii c2))%Z
  end.

(** [strcasecmp(s1, s2)]: the same without a bound. *)
Fixpoint strcasecmp (s1 s2 : bytes) : Z :=
  let c2 := tolower (peek s2) in
  match s1 with
  | [] =>
      if Ascii.eqb NUL c2 then 0%Z
      else (0 - Z.of_N (N_of_ascii c2))%Z
  | a :: s1' =>
      let c1 := tolower a in
      if Ascii.eqb c1 c2
      then if Ascii.eqb c1 NUL then 0%Z else strcasecmp s1' (tl s2)
      else (Z.of_N (N_of_ascii c1) - Z.of_N (N_of_ascii c2))%Z
  end.

(** [strlen(p)]: number of bytes before the first NUL. *)
Fixpoint strlen (p : bytes) : nat :=
  match p with
  | [] => 0
  | c :: p' => if Ascii.eqb c NUL then 0 else S (strlen p')
  end.

(** The text of the C string at [p]. *)
Definition cstr (p : bytes) : bytes := firstn (strlen p) p.

(** [snprintf(dst, size, "<pre>%s<post>", arg)]: the formatted text cut to
    [size - 1] bytes (the terminator is implicit). *)
Definition snprintf_s (size : nat) (pre arg post : bytes) : bytes :=
  firstn (size - 1) (pre ++ cstr arg ++ post).

(** *** Checked writes into a destination buffer *)

Definition bind {A B} (m : option A) (k : A -> option B) : option B :=
  match m with
  | Some a => k a
  | None => None
  end.

Notation "x <- m ;; k" := (bind m (fun x => k))
  (at level 61, m at next level, right associativity).

(** [memcpy(dst, src, n)]. *)
Definition memcpy (dst src : bytes) (n : nat) : option bytes :=
  if (n <=? length dst) && (n <=? length src)
  then Some (firstn n src ++ skipn n dst)
  else None.

(** [dst[i] = c]. *)
Definition store (dst : bytes) (i : nat) (c : ascii) : option bytes :=
  if i <? length dst
  then Some (firstn i dst ++ c :: skipn (S i) dst)
  else None.

(** [memmove(dst, dst + off, n)]. *)
Definition memmove (dst : bytes) (off n : nat) : option bytes :=
  if off + n <=? length dst
  then Some (firstn n (skipn off dst) ++ skipn n dst)
  else None.

(* ================================================================== *)
(** ** Simple XML field extractor                                      *)
(* ================================================================== *)

(** The two search loops of [xml_get_field],
    [for (p = start; *p; p++) if (strncasecmp(p, t, tlen) == 0) ...]:
    the offset from [p] of the first position at which [t] matches, if
    there is one before the terminator. *)
Fixpoint find_tag (p t : bytes) (tlen : nat) : option nat :=
  match p with
  | [] => None
  | c :: p' =>
      if Ascii.eqb c NUL then None
      else if (strncasecmp p t tlen =? 0)%Z then Some 0
      else option_map S (find_tag p' t tlen)
  end.

(** The characters both trimming loops skip. *)
Definition is_ws (c : ascii) : bool :=
  Ascii.eqb c " " || Ascii.eqb c "009" || Ascii.eqb c "013" || Ascii.eqb c "010".

(** The loop that advances [p] over leading white space: how far [p]
    moves. *)
Fixpoint skip_ws (p : bytes) : nat :=
  match p with
  | [] => 0
  | c :: p' => if is_ws c then S (skip_ws p') else 0
  end.

(** The loop that overwrites trailing white space with NUL while [e] has
    not moved before [buf]; [k] is [e - buf + 1]. *)
Fixpoint trim_trailing (buf : bytes) (k : nat) : option bytes :=
  match k with
  | O => Some buf
  | S e =>
      if is_ws (nth e buf NUL)
      then buf' <- store buf e NUL ;; trim_trailing buf' e
      else Some buf
  end.

Definition open_tag (tag : bytes) : bytes := snprintf_s 64 (lit "<") tag (lit ">").
Definition close_tag (tag : bytes) : bytes := snprintf_s 64 (lit "</") tag (lit ">").

(** The second half of [xml_get_field] (from [memcpy] on): copy [len]
    bytes from [start], terminate, and trim the copy in place. *)
Definition store_trimmed (buf start : bytes) (len : nat) : option bytes :=
  buf1 <- memcpy buf start len ;;
  buf2 <- store buf1 len NUL ;;
  let p := skip_ws buf2 in
  buf3 <- (if p =? 0 then Some buf2
           else memmove buf2 p (strlen (skipn p buf2) + 1)) ;;
  trim_trailing buf3 (strlen buf3).

(** [xml_get_field(xml, tag, buf, buflen)]: the returned [int] and the
    destination buffer afterwards; [None] when a write leaves the buffer.
    With [buflen = 0] the [size_t] expression [buflen - 1] wraps to
    [SIZE_MAX] and [memcpy] overruns every destination. *)
Definition xml_get_field (xml tag buf : bytes) (buflen : nat)
  : option (Z * bytes) :=
  let otlen := strlen (open_tag tag) in
  let ctlen := strlen (close_tag tag) in
  match find_tag xml (open_tag tag) otlen with
  | None => Some (0%Z, buf)
  | Some i =>
      let start := skipn (i + otlen) xml in
      match find_tag start (close_tag tag) ctlen with
      | None => Some (0%Z, buf)
      | Some len0 =>
          if buflen =? 0 then None
          else
            let len := if buflen <=? len0 then buflen - 1 else len0 in
            buf' <- store_trimmed buf start len ;;
            Some (1%Z, buf')
      end
  end.

(* ================================================================== *)
(** ** Process one UDP datagram                                        *)
(* ================================================================== *)

(** What the program does to the outside, in program order. *)
Inductive event : Type :=
| Stdout (s : bytes)               (* text written by [printf] *)
| Fflush                           (* [fflush(stdout)] *)
| Perror (s : bytes)               (* [perror(s)], on standard error *)
| Call_xml_get_field (tag : bytes) (* a call of the field extractor *)
| Call_play_sound.                 (* a call of [play_sound] *)

(** What the environment answers while one datagram is processed. *)
Record env : Type := {
  malloc_ok : bool;   (* whether [malloc(len + 1)] returns a block *)
  now : bytes;        (* the text [strftime] produces *)
  sender : bytes      (* the text [inet_ntoa(src->sin_addr)] produces *)
}.

Definition nl : ascii := "010"%char.

(** A [char name[n] = ""] local: all [n] bytes are zero. *)
Definition zeros (n : nat) : bytes := repeat NUL n.

(** [print_timestamp]. *)
Definition print_timestamp (e : env) : list event :=
  [Stdout (lit "[" ++ now e ++ lit "] ")].

(** The conversion [%-ws]: the string, padded on the right to width [w]. *)
Definition fmt_left (w : nat) (s : bytes) : bytes :=
  s ++ repeat " "%char (w - length s).

(** [f[0] ? f : "-"], as printed by [%s]. *)
Definition or_dash (f : bytes) : bytes :=
  if Ascii.eqb (peek f) NUL then lit "-" else cstr f.

Definition contactinfo : bytes := lit "<contactinfo>".

(** The marker loop [for (i = 0; i + 13 <= len; i++)]: [n] counts the
    values of [i] still to visit. *)
Fixpoint scan_contactinfo (buf : bytes) (i n : nat) : bool :=
  match n with
  | O => false
  | S n' =>
      if (strncasecmp (skipn i buf) contactinfo 13 =? 0)%Z then true
      else scan_contactinfo buf (S i) n'
  end.

Definition found_ci (buf : bytes) (len : nat) : bool :=
  scan_contactinfo buf 0 (len + 1 - 13).

(** The eight destination buffers after the eight extractor calls. *)
Record fields : Type := {
  f_call : bytes; f_band : bytes; f_mode : bytes;
  f_mult1 : bytes; f_mult2 : bytes; f_mult3 : bytes;
  f_newqso : bytes; f_xqso : bytes
}.

Definition extract (xml : bytes) (tag : string) (size : nat) : option bytes :=
  r <- xml_get_field xml (lit tag) (zeros size) size ;; Some (snd r).

Definition extract_fields (xml : bytes) : option fields :=
  call <- extract xml "call" 64 ;;
  band <- extract xml "band" 32 ;;
  mode <- extract xml "mode" 16 ;;
  mult1 <- extract xml "mult1" 64 ;;
  mult2 <- extract xml "mult2" 64 ;;
  mult3 <- extract xml "mult3" 64 ;;
  newqso <- extract xml "newqso" 16 ;;
  xqso <- extract xml "xqso" 16 ;;
  Some {| f_call := call; f_band := band; f_mode := mode;
          f_mult1 := mult1; f_mult2 := mult2; f_mult3 := mult3;
          f_newqso := newqso; f_xqso := xqso |}.

Definition extractor_calls : list event :=
  map (fun t => Call_xml_get_field (lit t))
    ["call"; "band"; "mode"; "mult1"; "mult2"; "mult3"; "newqso"; "xqso"]%string.

Definition has_mult (f : fields) : bool :=
  negb (Ascii.eqb (peek (f_mult1 f)) NUL) ||
  negb (Ascii.eqb (peek (f_mult2 f)) NUL) ||
  negb (Ascii.eqb (peek (f_mult3 f)) NUL).

Definition is_new (f : fields) : bool :=
  (strcasecmp (f_newqso f) (lit "true") =? 0)%Z.

(** The conversions of the [PKT] format after the sender's address: the
    text before each, its label, its width and the argument it prints. *)
Definition rendered (f : fields) : list (string * string * nat * bytes) :=
  [(" ", "call", 8, or_dash (f_call f));
   (" ", "band", 3, or_dash (f_band f));
   (" ", "mode", 3, or_dash (f_mode f));
   (" ", "mult1", 2, or_dash (f_mult1 f));
   ("  ", "mult2", 2, or_dash (f_mult2 f));
   ("  ", "mult3", 2, or_dash (f_mult3 f));
   (" ", "newqso", 5, or_dash (f_newqso f))]%string.

Definition render_one (r : string * string * nat * bytes) : bytes :=
  let '(sep, label, w, v) := r in
  lit sep ++ lit label ++ lit "=" ++ fmt_left w v.

(** The text of the [PKT from ...] call of [printf]. *)
Definition pkt_line (e : env) (f : fields) : bytes :=
  lit "PKT from " ++ fmt_left 15 (sender e)
  ++ concat (map render_one (rendered f)).

Definition mult_marker : bytes := lit "  *** MULT → SOUND ***".

(** [process_datagram(buf, len, src)]: the events it produces, or [None]
    if a field buffer is overrun. *)
Definition process_datagram (buf : bytes) (len : nat) (e : env)
  : option (list event) :=
  if negb (found_ci buf len) then Some []
  else if negb (malloc_ok e) then Some [Perror (lit "malloc")]
  else
    let xml := firstn len buf ++ [NUL] in
    f <- extract_fields xml ;;
    Some (extractor_calls
          ++ print_timestamp e
          ++ [Stdout (pkt_line e f)]
          ++ (if has_mult f && is_new f
              then [Stdout mult_marker; Fflush; Call_play_sound]
              else [])
          ++ [Stdout [nl]; Fflush]).

(* ================================================================== *)
(** ** Main                                                            *)
(* ================================================================== *)

(** One return of [recvfrom]: an error, or a datagram together with what
    the environment answers while it is processed. *)
Inductive recv : Type :=
| Recv_error
| Recv_ok (data : bytes) (e : env).

(** Where [main] stands once the environment's answers are used up. *)
Inductive status : Type :=
| Exited (code : Z)
| Listening.

Definition banner : list event :=
  [Stdout (lit "=== DXLog Multiplier Listener ===" ++ [nl]);
   Stdout (lit "Port      : UDP 12060" ++ [nl]);
   Stdout (lit "Trigger   : mult1/mult2/mult3 non-empty AND newqso=true" ++ [nl]);
   Stdout (lit "Sound     : WAV file via aplay (./handbell.wav)" ++ [nl]);
   Stdout [nl];
   Fflush].

(** The body of [for (;;)], once per answer of [recvfrom]; [buf] is the
    static receive buffer, which keeps the bytes of earlier datagrams
    beyond the [n] bytes just received. *)
Fixpoint listen (buf : bytes) (inputs : list recv) : option (list event) :=
  match inputs with
  | [] => Some []
  | Recv_error :: rest =>
      tr <- listen buf rest ;; Some (Perror (lit "recvfrom") :: tr)
  | Recv_ok data e :: rest =>
      let n := Nat.min (length data) 65535 in
      let buf' := firstn n data ++ skipn n buf in
      tr1 <- process_datagram buf' n e ;;
      tr2 <- listen buf' rest ;;
      Some (tr1 ++ tr2)
  end.

(** What [main] prints before it enters the loop. *)
Definition startup : list event :=
  banner ++ [Stdout (lit "Listening on 0.0.0.0:12060 …" ++ [nl; nl]); Fflush].

(** [main]: the status reached and the events produced when [socket] and
    [bind] succeed or fail as given and [recvfrom] answers [inputs]. *)
Definition main (socket_ok bind_ok : bool) (inputs : list recv)
  : option (status * list event) :=
  if negb socket_ok then Some (Exited 1, banner ++ [Perror (lit "socket")])
  else if negb bind_ok then Some (Exited 1, banner ++ [Perror (lit "bind")])
  else
    tr <- listen (zeros 65536) inputs ;;
    Some (Listening, startup ++ tr).

(* ================================================================== *)
(** ** Tone generation (SOUND_MODE_BEEP and SOUND_MODE_ALSA)           *)
(* ================================================================== *)

Module Tone.

Import PrimFloat.

(** [int] and [short] values are integers with their wrap-around. *)
Definition int_wrap (z : Z) : Z := ((z + 2 ^ 31) mod 2 ^ 32 - 2 ^ 31)%Z.
Definition short_wrap (z : Z) : Z := ((z + 2 ^ 15) mod 2 ^ 16 - 2 ^ 15)%Z.

(** [double] is IEEE binary64, Rocq's primitive [float]. *)
Definition double := PrimFloat.float.

(** [(double)z] for an [int] [z]. *)
Definition double_of_int (z : Z) : double :=
  if (z <? 0)%Z
  then PrimFloat.opp (PrimFloat.of_uint63 (Uint63.of_Z (- z)))
  else PrimFloat.of_uint63 (Uint63.of_Z z).

(** The integer part of a [double], towards zero (0 where C leaves the
    conversion undefined). *)
Definition trunc (x : double) : Z :=
  match FloatOps.Prim2SF x with
  | SpecFloat.S754_finite s m e =>
      let v := if (0 <=? e)%Z then (Z.pos m * 2 ^ e)%Z
               else (Z.pos m / 2 ^ (- e))%Z in
      if s then (- v)%Z else v
  | _ => 0%Z
  end.

(** [(short)x] for a [double] [x]. *)
Definition short_of_double (x : double) : Z := short_wrap (trunc x).

Definition M_PI : double := 0x1.921fb54442d18p+1%float.

(** The value of the macro [BEEP_VOLUME], 0.6. *)
Definition volume_0_6 : double := 0x1.3333333333333p-1%float.

(** [samples[i] = v] on the block [malloc] returned. *)
Definition store_sample (samples : list Z) (i : Z) (v : Z) : list Z :=
  firstn (Z.to_nat i) samples ++ v :: skipn (S (Z.to_nat i)) samples.

Section Loops.

(** [sin] of libm, and the four configuration macros. *)
Variable sin : double -> double.
Variables SAMPLE_RATE BEEP_FREQ_HZ BEEP_DURATION : Z.
Variable BEEP_VOLUME : double.

Local Open Scope Z_scope.

(** *** Strategy 2: the loop of [play_sound] under SOUND_MODE_BEEP *)

Definition beep_num_samples : Z :=
  int_wrap (Z.quot (int_wrap (SAMPLE_RATE * BEEP_DURATION)) 1000).

Fixpoint beep_loop (n : nat) (i : Z) (samples : list Z) : list Z :=
  match n with
  | O => samples
  | S n' =>
      let num_samples := beep_num_samples in
      let t := PrimFloat.div (double_of_int i) (double_of_int SAMPLE_RATE) in
      let fade := 1%float in
      let fadelen := Z.quot SAMPLE_RATE 50 in
      let fade :=
        if i <? fadelen
        then PrimFloat.div (double_of_int i) (double_of_int fadelen)
        else if int_wrap (num_samples - fadelen) <? i
             then PrimFloat.div (double_of_int (int_wrap (num_samples - i)))
                                (double_of_int fadelen)
             else fade in
      let s :=
        PrimFloat.mul (PrimFloat.mul BEEP_VOLUME fade)
          (sin (PrimFloat.mul
                  (PrimFloat.mul (PrimFloat.mul 2%float M_PI)
                                 (double_of_int BEEP_FREQ_HZ)) t)) in
      beep_loop n' (i + 1)
        (store_sample samples i
           (short_of_double (PrimFloat.mul s 32767%float)))
  end.

(** The block after the loop, from the block [malloc] returned. *)
Definition beep_samples (block : list Z) : list Z :=
  beep_loop (Z.to_nat beep_num_samples) 0 block.

(** *** Strategy 3: the loop of [play_sound] under SOUND_MODE_ALSA *)

Definition alsa_num_samples : Z :=
  Z.quot (int_wrap (SAMPLE_RATE * BEEP_DURATION)) 1000.

Fixpoint alsa_loop (n : nat) (i : Z) (samples : list Z) : list Z :=
  match n with
  | O => samples
  | S n' =>
      let num_samples := alsa_num_samples in
      let t := PrimFloat.div (double_of_int i) (double_of_int SAMPLE_RATE) in
      let fade := 1%float in
      let fadelen := Z.quot SAMPLE_RATE 50 in
      let fade :=
        if i <? fadelen
        then PrimFloat.div (double_of_int i) (double_of_int fadelen)
        else if int_wrap (num_samples - fadelen) <? i
             then PrimFloat.div (double_of_int (int_wrap (num_samples - i)))
                                (double_of_int fadelen)
             else fade in
      let s :=
        PrimFloat.mul (PrimFloat.mul BEEP_VOLUME fade)
          (sin (PrimFloat.mul
                  (PrimFloat.mul (PrimFloat.mul 2%float M_PI)
                                 (double_of_int BEEP_FREQ_HZ)) t)) in
      alsa_loop n' (i + 1)
        (store_sample samples i
           (short_of_double (PrimFloat.mul s 32767%float)))
  end.

Definition alsa_samples (block : list Z) : list Z :=
  alsa_loop (Z.to_nat alsa_num_samples) 0 block.

(** *** The sample at index [i] in closed form *)

(** The linear fade-in and fade-out over [SAMPLE_RATE / 50] samples. *)
Definition fade (num_samples i : Z) : double :=
  let fadelen := Z.quot SAMPLE_RATE 50 in
  if i <? fadelen
  then PrimFloat.div (double_of_int i) (double_of_int fadelen)
  else if int_wrap (num_samples - fadelen) <? i
       then PrimFloat.div (double_of_int (int_wrap (num_samples - i)))
                          (double_of_int fadelen)
       else 1%float.

(** [(short)(volume * fade(i) * sin(2 pi freq i / rate) * 32767.0)], in
    the order the C expression is evaluated. *)
Definition tone_sample (num_samples i : Z) : Z :=
  let t := PrimFloat.div (double_of_int i) (double_of_int SAMPLE_RATE) in
  short_of_double
    (PrimFloat.mul
       (PrimFloat.mul (PrimFloat.mul BEEP_VOLUME (fade num_samples i))
          (sin (PrimFloat.mul
                  (PrimFloat.mul (PrimFloat.mul 2%float M_PI)
                                 (double_of_int BEEP_FREQ_HZ)) t)))
       32767%float).

(** The whole tone in closed form. *)
Definition tone (num_samples : Z) : list Z :=
  map (fun k => tone_sample num_samples (Z.of_nat k))
      (seq 0 (Z.to_nat num_samples)).

End Loops.

(** *** A sample as the specification words it *)

(** The [double] a sample is converted from:
    [volume * fade(i) * sin(2 pi freq i / rate) * 32767.0]. *)
Definition tone_value (sin : double -> double)
  (SAMPLE_RATE BEEP_FREQ_HZ : Z) (BEEP_VOLUME : double)
  (num_samples i : Z) : double :=
  let t := PrimFloat.div (double_of_int i) (double_of_int SAMPLE_RATE) in
  PrimFloat.mul
    (PrimFloat.mul (PrimFloat.mul BEEP_VOLUME (fade SAMPLE_RATE num_samples i))
       (sin (PrimFloat.mul
               (PrimFloat.mul (PrimFloat.mul 2%float M_PI)
                              (double_of_int BEEP_FREQ_HZ)) t)))
    32767%float.

(** Rounding of a [double] to the nearest integer, halves away from zero
    (0 where [trunc] is 0 for want of a value). *)
Definition round_double (x : double) : Z :=
  match FloatOps.Prim2SF x with
  | SpecFloat.S754_finite s m e =>
      let v := if (0 <=? e)%Z then (Z.pos m * 2 ^ e)%Z
               else ((Z.pos m + 2 ^ (- e - 1)) / 2 ^ (- e))%Z in
      if s then (- v)%Z else v
  | _ => 0%Z
  end.

(** The sample of the specification's formula, with [round]. *)
Definition rounded_sample (sin : double -> double)
  (SAMPLE_RATE BEEP_FREQ_HZ : Z) (BEEP_VOLUME : double)
  (num_samples i : Z) : Z :=
  short_wrap
    (round_double
       (tone_value sin SAMPLE_RATE BEEP_FREQ_HZ BEEP_VOLUME num_samples i)).

(** A sine for concrete runs, in place of libm's: the argument is reduced
    to [-pi, pi] and the Taylor polynomial of degree 27 is evaluated by
    Horner's rule. *)
Definition sin_series (x : double) : double :=
  let two_pi := PrimFloat.mul 2%float M_PI in
  let k := double_of_int (trunc (PrimFloat.div x two_pi)) in
  let r := PrimFloat.sub x (PrimFloat.mul k two_pi) in
  let r := if PrimFloat.ltb M_PI r then PrimFloat.sub r two_pi
           else if PrimFloat.ltb r (PrimFloat.opp M_PI)
                then PrimFloat.add r two_pi
                else r in
  let r2 := PrimFloat.mul r r in
  PrimFloat.mul r
    (fold_left
       (fun acc j =>
          PrimFloat.sub 1%float
            (PrimFloat.mul
               (PrimFloat.div r2 (double_of_int (2 * j * (2 * j + 1)))) acc))
       [13; 12; 11; 10; 9; 8; 7; 6; 5; 4; 3; 2; 1]%Z
       1%float).

End Tone.

(* ================================================================== *)
(** ** Specification vocabulary                                        *)
(* ================================================================== *)

(** Equality of two texts up to the case of ASCII letters. *)
Definition ci_eq (a b : bytes) : Prop := map tolower a = map tolower b.

(** [t] occurs in [s] at offset [i], up to case. *)
Definition ci_occurs_at (t s : bytes) (i : nat) : Prop :=
  ci_eq (firstn (length t) (skipn i s)) t.

Definition ci_occurs (t s : bytes) : Prop := exists i, ci_occurs_at t s i.

(** The first occurrence of [t] in [s] is at offset [i]. *)
Definition first_ci_at (t s : bytes) (i : nat) : Prop :=
  ci_occurs_at t s i /\ forall j, j < i -> ~ ci_occurs_at t s j.

Definition nulfree (s : bytes) : Prop := ~ In NUL s.

(** [t] is nowhere in the C string at [p], and its first occurrence there
    is at offset [i]. *)
Definition absent (t p : bytes) : Prop :=
  forall j, j < strlen p -> ~ ci_occurs_at t p j.

Definition first_at (t p : bytes) (i : nat) : Prop :=
  i < strlen p /\ first_ci_at t p i.

(** The same for the two tags [xml_get_field] formats. *)
Definition open_absent (xml tag : bytes) : Prop := absent (open_tag tag) xml.

Definition open_at (xml tag : bytes) (i : nat) : Prop :=
  first_at (open_tag tag) xml i.

(** Where the search for the closing tag starts, given the offset of the
    opening tag. *)
Definition after_open (xml tag : bytes) (i : nat) : bytes :=
  skipn (i + length (open_tag tag)) xml.

Definition close_absent (xml tag : bytes) (i : nat) : Prop :=
  absent (close_tag tag) (after_open xml tag i).

Definition close_at (xml tag : bytes) (i len0 : nat) : Prop :=
  first_at (close_tag tag) (after_open xml tag i) len0.

(** The text between the two tags. *)
Definition inner_text (xml tag : bytes) (i len0 : nat) : bytes :=
  firstn len0 (after_open xml tag i).

(** Removal of leading white space, and of white space at both ends. *)
Fixpoint drop_ws (s : bytes) : bytes :=
  match s with
  | [] => []
  | c :: s' => if is_ws c then drop_ws s' else s
  end.

Definition trim (s : bytes) : bytes := rev (drop_ws (rev (drop_ws s))).

(** The eight named fields with the size of their destination. *)
Definition named_fields : list (string * nat) :=
  [("call", 64); ("band", 32); ("mode", 16); ("mult1", 64);
   ("mult2", 64); ("mult3", 64); ("newqso", 16); ("xqso", 16)]%string.

(** The destination filled for a tag. *)
Definition field_of (f : fields) (tag : string) : bytes :=
  if String.eqb tag "call" then f_call f
  else if String.eqb tag "band" then f_band f
  else if String.eqb tag "mode" then f_mode f
  else if String.eqb tag "mult1" then f_mult1 f
  else if String.eqb tag "mult2" then f_mult2 f
  else if String.eqb tag "mult3" then f_mult3 f
  else if String.eqb tag "newqso" then f_newqso f
  else f_xqso f.

(** The trigger rule in the words of the specification. *)
Definition trigger (f : fields) : Prop :=
  (cstr (f_mult1 f) <> [] \/ cstr (f_mult2 f) <> [] \/ cstr (f_mult3 f) <> [])
  /\ ci_eq (cstr (f_newqso f)) (lit "true").

Definition rtrim (w : bytes) : bytes := rev (drop_ws (rev w)).

(** The number of bytes [memcpy] copies. *)
Definition copy_len (buflen len0 : nat) : nat :=
  if buflen <=? len0 then buflen - 1 else len0.

(** What the trigger rule says of the events [tr] of a datagram whose
    extracted fields are [f]. *)
Definition fires_exactly_on_trigger (e : env) (f : fields) (tr : list event)
  : Prop :=
  (In Call_play_sound tr <-> trigger f)
  /\ (In (Stdout mult_marker) tr <-> trigger f)
  /\ (trigger f ->
      exists pre, tr = pre ++ [Stdout (pkt_line e f); Stdout mult_marker;
                               Fflush; Call_play_sound; Stdout [nl]; Fflush])
  /\ (~ trigger f ->
      exists pre, tr = pre ++ [Stdout (pkt_line e f); Stdout [nl]; Fflush]).

(** A document [pre ++ o ++ inner ++ c ++ post] in which [o] is the first
    opening tag and [c] the first closing tag after it. *)
Definition well_formed_pair (tag pre o inner c post : bytes) : Prop :=
  nulfree (pre ++ o ++ inner ++ c)
  /\ ci_eq o (lit "<" ++ tag ++ lit ">")
  /\ ci_eq c (lit "</" ++ tag ++ lit ">")
  /\ (forall j, j < length pre ->
        ~ ci_occurs_at (lit "<" ++ tag ++ lit ">")
            (pre ++ o ++ inner ++ c ++ post) j)
  /\ (forall j, j < length inner ->
        ~ ci_occurs_at (lit "</" ++ tag ++ lit ">") (inner ++ c ++ post) j).

(** The opening tag is not found, or it is and the closing tag is not. *)
Definition extraction_fails (xml tag : bytes) : Prop :=
  open_absent xml tag \/ exists i, open_at xml tag i /\ close_absent xml tag i.

Definition no_fields : fields :=
  {| f_call := zeros 64; f_band := zeros 32; f_mode := zeros 16;
     f_mult1 := zeros 64; f_mult2 := zeros 64; f_mult3 := zeros 64;
     f_newqso := zeros 16; f_xqso := zeros 16 |}.

(** The two failures the loop survives, with the text given to [perror]. *)
Inductive failure : recv -> bytes -> Prop :=
| recv_failed : failure Recv_error (lit "recvfrom")
| alloc_failed (data : bytes) (e : env) :
    ci_occurs contactinfo (firstn 65535 data) ->
    malloc_ok e = false ->
    failure (Recv_ok data e) (lit "malloc").

(** *** Sample inputs *)

Definition env0 : env :=
  {| malloc_ok := true; now := lit "2024-01-01 00:00:00";
     sender := lit "10.0.0.7" |}.

(** The datagram of the end-to-end scenario. *)
Definition dg_mult : bytes :=
  lit "<contactinfo><call>W1AW</call><band>20</band><mode>CW</mode><mult1>NY</mult1><mult2></mult2><mult3></mult3><newqso>true</newqso></contactinfo>".

(** A datagram without a band. *)
Definition dg_noband : bytes :=
  lit "<contactinfo><call>W1AW</call><newqso>true</newqso></contactinfo>".

(** A mode value longer than the 16 bytes of its destination. *)
Definition dg_longmode : bytes := lit "<mode>RTTY-CONTEST-MODE</mode>".

(** A tag of 61 bytes, and a document with its opening tag whose closing
    tag lacks the final [>]. *)
Definition tag61 : bytes := repeat "a"%char 61.

Definition dg_tag61 : bytes :=
  lit "<" ++ tag61 ++ lit ">" ++ lit "x" ++ lit "</" ++ tag61.

(** *** The listener loop, one datagram at a time *)

(** What one answer of [recvfrom] contributes, taken alone. *)
Definition datagram_trace (x : recv) : option (list event) :=
  match x with
  | Recv_error => Some [Perror (lit "recvfrom")]
  | Recv_ok data e => process_datagram data (Nat.min (length data) 65535) e
  end.




(** A newqso value pushed out of its 16-byte destination by white space. *)
Definition dg_padded_newqso : bytes :=
  lit "<newqso>                true</newqso>".

(** The scenario's datagram around its newqso pair and its mult1 pair. *)
Definition dg_mult_before_newqso : bytes :=
  lit "<contactinfo><call>W1AW</call><band>20</band><mode>CW</mode><mult1>NY</mult1><mult2></mult2><mult3></mult3>".

Definition dg_mult_after_newqso : bytes := lit "</contactinfo>" ++ [NUL].

Definition dg_mult_before_mult1 : bytes :=
  lit "<contactinfo><call>W1AW</call><band>20</band><mode>CW</mode>".

Definition dg_mult_after_mult1 : bytes :=
  lit "<mult2></mult2><mult3></mult3><newqso>true</newqso></contactinfo>"
  ++ [NUL].

(* ================================================================== *)
(** ** Characters and comparisons                                      *)
(* ================================================================== *)

Arguments tolower : simpl never.
Arguments Ascii.eqb : simpl never.
Arguments N_of_ascii : simpl never.

Lemma tolower_NUL_iff (c : ascii) : tolower c = NUL <-> c = NUL.
Proof.
  destruct c as [[] [] [] [] [] [] [] []]; vm_compute; split; congruence.
Qed.

Lemma is_ws_not_NUL (c : ascii) : is_ws c = true -> c <> NUL.
Proof. intros H ->; discriminate H. Qed.

Lemma ascii_diff_zero (a b : ascii) :
  (Z.of_N (N_of_ascii a) - Z.of_N (N_of_ascii b) = 0)%Z -> a = b.
Proof.
  intros H.
  rewrite <- (ascii_N_embedding a), <- (ascii_N_embedding b).
  f_equal; lia.
Qed.

Lemma nulfree_cons (c : ascii) (s : bytes) :
  nulfree (c :: s) <-> c <> NUL /\ nulfree s.
Proof.
  unfold nulfree; simpl; split.
  - intros H; split; [intros ->; apply H; now left | intros K; apply H; now right].
  - intros [H1 H2] [K | K]; [now apply H1 | now apply H2].
Qed.

Lemma nulfree_app (a b : bytes) : nulfree (a ++ b) <-> nulfree a /\ nulfree b.
Proof.
  unfold nulfree; rewrite in_app_iff; tauto.
Qed.

Lemma nulfree_nil : nulfree [].
Proof. intros []. Qed.

Lemma ci_eq_nulfree (a b : bytes) : ci_eq a b -> nulfree b -> nulfree a.
Proof.
  unfold ci_eq; revert b; induction a as [|x a IH]; intros [|y b] E Hb;
    try discriminate; [apply nulfree_nil|].
  simpl in E; injection E as E1 E2.
  apply nulfree_cons in Hb as [Hy Hb].
  apply nulfree_cons; split; [|eauto].
  intros ->. apply Hy, tolower_NUL_iff. now rewrite <- E1.
Qed.

Lemma ci_eq_length (a b : bytes) : ci_eq a b -> length a = length b.
Proof.
  unfold ci_eq; intros E. apply (f_equal (@length _)) in E.
  now rewrite !length_map in E.
Qed.

(** [strncasecmp] against a NUL-free text of length [n] answers 0 exactly
    when the first [n] bytes equal the text up to case. *)
Lemma strncasecmp_zero_iff (t s : bytes) :
  nulfree t ->
  strncasecmp s t (length t) = 0%Z <-> ci_eq (firstn (length t) s) t.
Proof.
  unfold ci_eq; revert s; induction t as [|y t IH]; intros s Ht; simpl.
  - split; reflexivity.
  - apply nulfree_cons in Ht as [Hy Ht].
    assert (Hly : tolower y <> NUL) by (now rewrite tolower_NUL_iff).
    destruct s as [|x s]; simpl.
    + change (tolower NUL) with NUL.
      destruct (Ascii.eqb_spec NUL (tolower y)) as [E|E].
      * exfalso; apply Hly; now rewrite <- E.
      * split; [|discriminate].
        intros H; exfalso; apply E.
        apply (ascii_diff_zero NUL); exact H.
    + destruct (Ascii.eqb_spec (tolower x) (tolower y)) as [E|E].
      * rewrite E.
        destruct (Ascii.eqb_spec (tolower y) NUL) as [E'|_]; [contradiction|].
        rewrite IH by assumption. split; [intros ->; reflexivity|].
        intros H; now injection H.
      * split; [intros H; apply ascii_diff_zero in H; contradiction|].
        intros H; injection H as H _; contradiction.
Qed.

(* ================================================================== *)
(** ** C strings                                                       *)
(* ================================================================== *)

Lemma strlen_le (p : bytes) : strlen p <= length p.
Proof.
  induction p as [|c p IH]; simpl; [lia|].
  destruct (Ascii.eqb c NUL); lia.
Qed.

Lemma strlen_nulfree_app (s r : bytes) :
  nulfree s -> strlen (s ++ NUL :: r) = length s.
Proof.
  induction s as [|c s IH]; intros H; simpl; [reflexivity|].
  apply nulfree_cons in H as [Hc Hs].
  destruct (Ascii.eqb_spec c NUL); [contradiction|].
  now rewrite IH.
Qed.

Lemma strlen_nulfree (s : bytes) : nulfree s -> strlen s = length s.
Proof.
  induction s as [|c s IH]; intros H; simpl; [reflexivity|].
  apply nulfree_cons in H as [Hc Hs].
  destruct (Ascii.eqb_spec c NUL); [contradiction|].
  now rewrite IH.
Qed.

Lemma firstn_strlen_nulfree (p : bytes) (i : nat) :
  i <= strlen p -> nulfree (firstn i p).
Proof.
  revert i; induction p as [|c p IH]; intros [|i] H; simpl in *;
    try apply nulfree_nil.
  destruct (Ascii.eqb_spec c NUL); [lia|].
  apply nulfree_cons; split; [assumption | apply IH; lia].
Qed.

Lemma cstr_nulfree (p : bytes) : nulfree (cstr p).
Proof. now apply firstn_strlen_nulfree. Qed.

Lemma cstr_app_NUL (s r : bytes) : nulfree s -> cstr (s ++ NUL :: r) = s.
Proof.
  intros H; unfold cstr. rewrite strlen_nulfree_app by assumption.
  now rewrite firstn_app, Nat.sub_diag, firstn_all, app_nil_r.
Qed.

Lemma cstr_of_nulfree (s : bytes) : nulfree s -> cstr s = s.
Proof.
  intros H; unfold cstr. rewrite strlen_nulfree by assumption.
  apply firstn_all.
Qed.

Lemma strlen_cstr (p : bytes) : strlen (cstr p) = strlen p.
Proof.
  rewrite (strlen_nulfree _ (cstr_nulfree p)).
  unfold cstr. rewrite length_firstn. pose proof (strlen_le p). lia.
Qed.

Lemma strlen_skipn (p : bytes) (i : nat) :
  i <= strlen p -> strlen (skipn i p) = strlen p - i.
Proof.
  revert i; induction p as [|c p IH]; intros [|i] H; simpl in *; try lia.
  destruct (Ascii.eqb_spec c NUL); [lia|]. apply IH; lia.
Qed.

(** Only the text before the first NUL is a C string's content. *)
Lemma strlen_app_NUL_irrel (s r : bytes) :
  nulfree s -> strlen (s ++ NUL :: r) = strlen s.
Proof.
  intros H. now rewrite strlen_nulfree_app, strlen_nulfree.
Qed.

Lemma nulfree_by_strlen (s : bytes) : strlen s = length s -> nulfree s.
Proof.
  intros H. rewrite <- (firstn_all s), <- H. apply cstr_nulfree.
Qed.

(* ================================================================== *)
(** ** The tag search                                                  *)
(* ================================================================== *)

Lemma ci_occurs_at_cons (t : bytes) (c : ascii) (p : bytes) (j : nat) :
  ci_occurs_at t (c :: p) (S j) <-> ci_occurs_at t p j.
Proof. reflexivity. Qed.

Lemma find_tag_lt (p t : bytes) (n i : nat) :
  find_tag p t n = Some i -> i < strlen p.
Proof.
  revert i; induction p as [|c p IH]; intros i; simpl; [discriminate|].
  destruct (Ascii.eqb c NUL); [discriminate|].
  destruct (strncasecmp (c :: p) t n =? 0)%Z.
  - intros [= <-]; lia.
  - destruct (find_tag p t n) as [k|]; [|discriminate].
    intros [= <-]. specialize (IH k eq_refl). lia.
Qed.

Lemma find_tag_Some_iff (p t : bytes) (i : nat) :
  nulfree t ->
  find_tag p t (length t) = Some i <-> i < strlen p /\ first_ci_at t p i.
Proof.
  intros Ht; revert i; induction p as [|c p IH]; intros i; simpl.
  - split; [discriminate | lia].
  - destruct (Ascii.eqb_spec c NUL) as [->|Hc].
    { split; [discriminate | lia]. }
    destruct (Z.eqb_spec (strncasecmp (c :: p) t (length t)) 0) as [E|E].
    + apply strncasecmp_zero_iff in E; [|assumption].
      split.
      * intros [= <-]. split; [lia|]. split; [exact E | intros j Hj; lia].
      * intros [_ [_ Hfirst]]. destruct i as [|i]; [reflexivity|].
        exfalso. apply (Hfirst 0); [lia | exact E].
    + assert (E' : ~ ci_occurs_at t (c :: p) 0).
      { intros H; apply E. now apply strncasecmp_zero_iff. }
      split.
      * destruct (find_tag p t (length t)) as [k|] eqn:Hk; [|discriminate].
        intros [= <-]. destruct (proj1 (IH k) eq_refl) as [Hlt [Hocc Hfirst]].
        split; [lia|]. split; [exact Hocc|].
        intros [|j] Hj; [exact E'|].
        rewrite ci_occurs_at_cons. apply Hfirst; lia.
      * intros [Hlt [Hocc Hfirst]]. destruct i as [|i]; [contradiction|].
        assert (Hi : find_tag p t (length t) = Some i).
        { apply IH. split; [lia|]. split; [exact Hocc|].
          intros j Hj. rewrite <- ci_occurs_at_cons. apply Hfirst; lia. }
        now rewrite Hi.
Qed.

Lemma find_tag_None_iff (p t : bytes) :
  nulfree t ->
  find_tag p t (length t) = None <->
  forall j, j < strlen p -> ~ ci_occurs_at t p j.
Proof.
  intros Ht; induction p as [|c p IH]; simpl.
  - split; [intros _ j Hj; lia | reflexivity].
  - destruct (Ascii.eqb_spec c NUL) as [->|Hc].
    { split; [intros _ j Hj; lia | reflexivity]. }
    destruct (Z.eqb_spec (strncasecmp (c :: p) t (length t)) 0) as [E|E].
    + apply strncasecmp_zero_iff in E; [|assumption].
      split; [discriminate|]. intros H; exfalso; apply (H 0); [lia | exact E].
    + split.
      * destruct (find_tag p t (length t)); [discriminate|]. intros _.
        intros [|j] Hj.
        -- intros H; apply E. now apply strncasecmp_zero_iff.
        -- rewrite ci_occurs_at_cons. apply IH; [reflexivity | lia].
      * intros H. rewrite (proj2 IH); [reflexivity|].
        intros j Hj. rewrite <- ci_occurs_at_cons. apply H; lia.
Qed.

(** The search decides the specification's predicates on given texts. *)
Lemma first_at_by_search (t p : bytes) (i : nat) :
  strlen t = length t -> find_tag p t (length t) = Some i -> first_at t p i.
Proof.
  intros Ht H.
  exact (proj1 (find_tag_Some_iff p t i (nulfree_by_strlen t Ht)) H).
Qed.

Lemma absent_by_search (t p : bytes) :
  strlen t = length t -> find_tag p t (length t) = None -> absent t p.
Proof.
  intros Ht H.
  exact (proj1 (find_tag_None_iff p t (nulfree_by_strlen t Ht)) H).
Qed.

Lemma no_earlier_by_search (t p : bytes) (i : nat) :
  strlen t = length t -> find_tag p t (length t) = Some i ->
  forall j, j < i -> ~ ci_occurs_at t p j.
Proof.
  intros Ht H. now destruct (first_at_by_search t p i Ht H) as [_ [_ Hf]].
Qed.

(* ================================================================== *)
(** ** Copying and trimming inside the destination                     *)
(* ================================================================== *)

Lemma trim_unfold (v : bytes) : trim v = rtrim (drop_ws v).
Proof. reflexivity. Qed.

Lemma skip_ws_app_NUL (v r : bytes) : skip_ws (v ++ NUL :: r) = skip_ws v.
Proof.
  induction v as [|c v IH]; simpl; [reflexivity|].
  destruct (is_ws c); [now rewrite IH | reflexivity].
Qed.

Lemma drop_ws_skipn (v : bytes) : drop_ws v = skipn (skip_ws v) v.
Proof.
  induction v as [|c v IH]; simpl; [reflexivity|].
  destruct (is_ws c); [exact IH | reflexivity].
Qed.

Lemma skip_ws_le (v : bytes) : skip_ws v <= length v.
Proof.
  induction v as [|c v IH]; simpl; [lia|]. destruct (is_ws c); lia.
Qed.

Lemma nulfree_skipn (v : bytes) (n : nat) : nulfree v -> nulfree (skipn n v).
Proof.
  intros H K. apply H. rewrite <- (firstn_skipn n v). apply in_or_app. now right.
Qed.

Lemma nulfree_firstn (v : bytes) (n : nat) : nulfree v -> nulfree (firstn n v).
Proof.
  intros H K. apply H. rewrite <- (firstn_skipn n v). apply in_or_app. now left.
Qed.

Lemma nulfree_rev (v : bytes) : nulfree v -> nulfree (rev v).
Proof. intros H K. apply H. now apply in_rev. Qed.

Lemma nulfree_drop_ws (v : bytes) : nulfree v -> nulfree (drop_ws v).
Proof. rewrite drop_ws_skipn. apply nulfree_skipn. Qed.

Lemma nulfree_rtrim (v : bytes) : nulfree v -> nulfree (rtrim v).
Proof.
  intros H. unfold rtrim. now apply nulfree_rev, nulfree_drop_ws, nulfree_rev.
Qed.

Lemma nulfree_trim (v : bytes) : nulfree v -> nulfree (trim v).
Proof. intros H. rewrite trim_unfold. now apply nulfree_rtrim, nulfree_drop_ws. Qed.

Lemma drop_ws_length (v : bytes) : length (drop_ws v) <= length v.
Proof.
  induction v as [|c v IH]; simpl; [lia|]. destruct (is_ws c); simpl; lia.
Qed.

Lemma rtrim_length (v : bytes) : length (rtrim v) <= length v.
Proof.
  unfold rtrim. rewrite length_rev.
  pose proof (drop_ws_length (rev v)). now rewrite length_rev in *.
Qed.

Lemma rtrim_snoc (w : bytes) (c : ascii) :
  rtrim (w ++ [c]) = if is_ws c then rtrim w else w ++ [c].
Proof.
  unfold rtrim. rewrite rev_app_distr. simpl.
  destruct (is_ws c); [reflexivity|].
  simpl. now rewrite rev_involutive.
Qed.

Lemma store_at_end (w x : bytes) (c d : ascii) :
  store (w ++ c :: x) (length w) d = Some (w ++ d :: x).
Proof.
  unfold store. rewrite length_app. cbn [length].
  destruct (Nat.ltb_spec (length w) (length w + S (length x))); [|lia].
  rewrite firstn_app, Nat.sub_diag, firstn_all. cbn [firstn]. rewrite app_nil_r.
  rewrite skipn_app.
  replace (S (length w) - length w) with 1 by lia.
  rewrite skipn_all2 by lia. reflexivity.
Qed.

Lemma nth_at_end (w x : bytes) (c d : ascii) :
  nth (length w) (w ++ c :: x) d = c.
Proof. rewrite app_nth2 by lia. now rewrite Nat.sub_diag. Qed.

(** The trailing loop leaves the text without its trailing white space,
    followed by the NULs it wrote, and touches nothing else. *)
Lemma trim_trailing_spec (w rest : bytes) :
  exists k,
    trim_trailing (w ++ rest) (length w)
      = Some (rtrim w ++ repeat NUL k ++ rest)
    /\ length (rtrim w) + k = length w.
Proof.
  revert rest; induction w as [|c w IH] using rev_ind; intros rest.
  - exists 0. split; reflexivity.
  - rewrite length_app, Nat.add_1_r, <- app_assoc. simpl.
    rewrite nth_at_end, rtrim_snoc.
    destruct (is_ws c) eqn:Hc.
    + rewrite store_at_end. simpl.
      destruct (IH (NUL :: rest)) as [k [Hk Hlen]].
      exists (S k). split; [|lia].
      rewrite Hk. do 2 f_equal.
      change (NUL :: rest) with ([NUL] ++ rest).
      rewrite app_assoc, <- repeat_cons. reflexivity.
    + exists 0. split; [now rewrite <- app_assoc | rewrite length_app; simpl; lia].
Qed.

(** The second half of [xml_get_field] run on a NUL-free value that fits:
    the destination then holds the trimmed value and its terminator,
    and the bytes after the copied length are the ones it had. *)
Lemma store_trimmed_spec (buf v r : bytes) :
  nulfree v -> length v < length buf ->
  exists mid,
    store_trimmed buf (v ++ r) (length v)
      = Some (trim v ++ NUL :: mid ++ skipn (S (length v)) buf)
    /\ length (trim v) + length mid = length v.
Proof.
  intros Hv Hlen. unfold store_trimmed.
  set (R := skipn (S (length v)) buf).
  assert (H1 : memcpy buf (v ++ r) (length v) = Some (v ++ skipn (length v) buf)).
  { unfold memcpy. rewrite length_app.
    destruct (Nat.leb_spec (length v) (length buf)); [|lia].
    destruct (Nat.leb_spec (length v) (length v + length r)); [|lia].
    simpl. now rewrite firstn_app, Nat.sub_diag, firstn_all, app_nil_r. }
  rewrite H1; simpl.
  assert (Hsk : skipn (length v) buf = nth (length v) buf NUL :: R).
  { unfold R. clear -Hlen. revert buf Hlen.
    induction (length v) as [|n IH]; intros [|b buf] H; simpl in *; try lia.
    - reflexivity.
    - apply IH; lia. }
  rewrite Hsk, store_at_end; simpl.
  rewrite skip_ws_app_NUL.
  assert (H3 : exists mid3,
    (if skip_ws v =? 0 then Some (v ++ NUL :: R)
     else memmove (v ++ NUL :: R) (skip_ws v)
            (strlen (skipn (skip_ws v) (v ++ NUL :: R)) + 1))
    = Some (drop_ws v ++ NUL :: mid3 ++ R)
    /\ length (drop_ws v) + length mid3 = length v).
  { pose proof (skip_ws_le v) as Hp. rewrite drop_ws_skipn.
    destruct (Nat.eqb_spec (skip_ws v) 0) as [E|E].
    - exists []. rewrite E. simpl. split; [reflexivity | lia].
    - set (p := skip_ws v) in *.
      assert (Hs : skipn p (v ++ NUL :: R) = skipn p v ++ NUL :: R).
      { rewrite skipn_app. replace (p - length v) with 0 by lia. reflexivity. }
      rewrite Hs, strlen_nulfree_app by now apply nulfree_skipn.
      rewrite length_skipn. unfold memmove. rewrite Hs.
      rewrite length_app. simpl.
      destruct (Nat.leb_spec (p + (length v - p + 1)) (length v + S (length R))); [|lia].
      exists (skipn (length v - p + 1) v ++ [NUL]).
      split.
      + f_equal.
        rewrite firstn_app, length_skipn.
        replace (length v - p + 1 - (length v - p)) with 1 by lia.
        rewrite firstn_all2 by (rewrite length_skipn; lia).
        simpl. rewrite skipn_app.
        replace (length v - p + 1 - length v) with 0 by lia.
        simpl. rewrite <- !app_assoc. reflexivity.
      + rewrite length_app, !length_skipn. simpl. lia. }
  destruct H3 as [mid3 [H3 Hl3]]. rewrite H3; simpl.
  rewrite strlen_nulfree_app by now apply nulfree_drop_ws.
  destruct (trim_trailing_spec (drop_ws v) (NUL :: mid3 ++ R)) as [k [Hk Hlk]].
  rewrite Hk. exists (repeat NUL k ++ mid3).
  rewrite trim_unfold. split.
  - do 2 f_equal.
    change (NUL :: mid3 ++ R) with ([NUL] ++ mid3 ++ R).
    rewrite app_assoc, <- repeat_cons. simpl. now rewrite <- app_assoc.
  - rewrite length_app, repeat_length. lia.
Qed.

(* ================================================================== *)
(** ** The field extractor                                             *)
(* ================================================================== *)

Lemma lit_nulfree_lt : nulfree (lit "<").
Proof. intros [H|[]]; discriminate H. Qed.

Lemma lit_nulfree_gt : nulfree (lit ">").
Proof. intros [H|[]]; discriminate H. Qed.

Lemma lit_nulfree_lts : nulfree (lit "</").
Proof. intros [H|[H|[]]]; discriminate H. Qed.

Lemma snprintf_s_nulfree (size : nat) (pre arg post : bytes) :
  nulfree pre -> nulfree post -> nulfree (snprintf_s size pre arg post).
Proof.
  intros H1 H2. unfold snprintf_s. apply nulfree_firstn.
  rewrite !nulfree_app. auto using cstr_nulfree.
Qed.

Lemma open_tag_nulfree (tag : bytes) : nulfree (open_tag tag).
Proof. apply snprintf_s_nulfree; [apply lit_nulfree_lt | apply lit_nulfree_gt]. Qed.

Lemma close_tag_nulfree (tag : bytes) : nulfree (close_tag tag).
Proof. apply snprintf_s_nulfree; [apply lit_nulfree_lts | apply lit_nulfree_gt]. Qed.

Lemma strlen_open_tag (tag : bytes) : strlen (open_tag tag) = length (open_tag tag).
Proof. apply strlen_nulfree, open_tag_nulfree. Qed.

Lemma strlen_close_tag (tag : bytes) : strlen (close_tag tag) = length (close_tag tag).
Proof. apply strlen_nulfree, close_tag_nulfree. Qed.

(** The opening tag of a tag of at most 61 bytes, and the closing tag of
    one of at most 60 bytes, are formatted without loss. *)
Lemma open_tag_short (tag : bytes) :
  nulfree tag -> length tag <= 61 -> open_tag tag = lit "<" ++ tag ++ lit ">".
Proof.
  intros Hn Hl. unfold open_tag, snprintf_s. rewrite cstr_of_nulfree by assumption.
  apply firstn_all2. rewrite !length_app. simpl. lia.
Qed.

Lemma close_tag_short (tag : bytes) :
  nulfree tag -> length tag <= 60 -> close_tag tag = lit "</" ++ tag ++ lit ">".
Proof.
  intros Hn Hl. unfold close_tag, snprintf_s. rewrite cstr_of_nulfree by assumption.
  apply firstn_all2. rewrite !length_app. simpl. lia.
Qed.

Lemma find_open_None (xml tag : bytes) :
  find_tag xml (open_tag tag) (strlen (open_tag tag)) = None
  <-> open_absent xml tag.
Proof. rewrite strlen_open_tag. apply find_tag_None_iff, open_tag_nulfree. Qed.

Lemma find_open_Some (xml tag : bytes) (i : nat) :
  find_tag xml (open_tag tag) (strlen (open_tag tag)) = Some i
  <-> open_at xml tag i.
Proof. rewrite strlen_open_tag. apply find_tag_Some_iff, open_tag_nulfree. Qed.

Lemma find_close_None (xml tag : bytes) (i : nat) :
  find_tag (after_open xml tag i) (close_tag tag) (strlen (close_tag tag)) = None
  <-> close_absent xml tag i.
Proof. rewrite strlen_close_tag. apply find_tag_None_iff, close_tag_nulfree. Qed.

Lemma find_close_Some (xml tag : bytes) (i len0 : nat) :
  find_tag (after_open xml tag i) (close_tag tag) (strlen (close_tag tag))
    = Some len0
  <-> close_at xml tag i len0.
Proof. rewrite strlen_close_tag. apply find_tag_Some_iff, close_tag_nulfree. Qed.

(** Every call falls in one of three cases. *)
Lemma extractor_cases (xml tag : bytes) :
  open_absent xml tag
  \/ (exists i, open_at xml tag i /\ close_absent xml tag i)
  \/ (exists i len0, open_at xml tag i /\ close_at xml tag i len0).
Proof.
  destruct (find_tag xml (open_tag tag) (strlen (open_tag tag))) as [i|] eqn:Ho.
  - apply find_open_Some in Ho. right.
    destruct (find_tag (after_open xml tag i) (close_tag tag)
                (strlen (close_tag tag))) as [l|] eqn:Hc.
    + apply find_close_Some in Hc. right. now exists i, l.
    + apply find_close_None in Hc. left. now exists i.
  - apply find_open_None in Ho. now left.
Qed.

Lemma xml_get_field_no_open (xml tag buf : bytes) (buflen : nat) :
  open_absent xml tag -> xml_get_field xml tag buf buflen = Some (0%Z, buf).
Proof.
  intros H. apply find_open_None in H. unfold xml_get_field. now rewrite H.
Qed.

Lemma xml_get_field_no_close (xml tag buf : bytes) (buflen i : nat) :
  open_at xml tag i -> close_absent xml tag i ->
  xml_get_field xml tag buf buflen = Some (0%Z, buf).
Proof.
  intros Ho Hc. apply find_open_Some in Ho. apply find_close_None in Hc.
  unfold xml_get_field. rewrite Ho. rewrite strlen_open_tag in *.
  unfold after_open in Hc. now rewrite Hc.
Qed.

Lemma inner_text_nulfree (xml tag : bytes) (i len0 : nat) :
  close_at xml tag i len0 -> nulfree (inner_text xml tag i len0).
Proof. intros [H _]. apply firstn_strlen_nulfree. lia. Qed.

Lemma inner_text_length (xml tag : bytes) (i len0 : nat) :
  close_at xml tag i len0 -> length (inner_text xml tag i len0) = len0.
Proof.
  intros [H _]. unfold inner_text. rewrite length_firstn.
  pose proof (strlen_le (after_open xml tag i)). lia.
Qed.

(** Both tags found: the destination receives the inner text, cut to
    [buflen - 1] bytes, trimmed and terminated; the bytes after the copied
    length keep their value. *)
Lemma xml_get_field_found (xml tag buf : bytes) (buflen i len0 : nat) :
  open_at xml tag i -> close_at xml tag i len0 ->
  1 <= buflen <= length buf ->
  let len := copy_len buflen len0 in
  let v := firstn len (inner_text xml tag i len0) in
  exists mid,
    xml_get_field xml tag buf buflen
      = Some (1%Z, trim v ++ NUL :: mid ++ skipn (S len) buf)
    /\ length (trim v) + length mid = len.
Proof.
  intros Ho Hc Hb len v.
  pose proof (inner_text_nulfree _ _ _ _ Hc) as Hnf.
  pose proof (inner_text_length _ _ _ _ Hc) as Hil.
  assert (Hlen : len <= len0 /\ len < buflen).
  { unfold len, copy_len. destruct (Nat.leb_spec buflen len0); lia. }
  assert (Hv : length v = len).
  { unfold v. rewrite length_firstn. lia. }
  assert (Hstart : after_open xml tag i = v ++ skipn len (after_open xml tag i)).
  { unfold v, inner_text. rewrite firstn_firstn.
    replace (Nat.min len len0) with len by lia.
    now rewrite firstn_skipn. }
  apply find_open_Some in Ho. apply find_close_Some in Hc.
  unfold xml_get_field. rewrite Ho. rewrite strlen_open_tag in *.
  unfold after_open in Hc, Hstart. rewrite Hc.
  destruct (Nat.eqb_spec buflen 0); [lia|].
  fold (copy_len buflen len0). fold len.
  destruct (store_trimmed_spec buf v (skipn len (skipn (i + length (open_tag tag)) xml)))
    as [mid [Hs Hm]].
  - now apply nulfree_firstn.
  - lia.
  - rewrite <- Hstart, Hv in Hs. rewrite Hs. simpl.
    exists mid. split; [reflexivity | lia].
Qed.

(** What the shape of the destination after a successful call implies. *)
Lemma found_shape (w mid buf : bytes) (len buflen : nat) :
  nulfree w -> length w + length mid = len -> len < buflen <= length buf ->
  let buf' := w ++ NUL :: mid ++ skipn (S len) buf in
  cstr buf' = w
  /\ strlen buf' = length w
  /\ nth (strlen buf') buf' " "%char = NUL
  /\ length buf' = length buf
  /\ skipn buflen buf' = skipn buflen buf.
Proof.
  intros Hw Hl Hb buf'. unfold buf'.
  rewrite cstr_app_NUL, strlen_nulfree_app by assumption.
  repeat split.
  - apply nth_at_end.
  - rewrite length_app. cbn [length]. rewrite length_app, length_skipn. lia.
  - change (w ++ NUL :: mid ++ skipn (S len) buf)
      with (w ++ [NUL] ++ mid ++ skipn (S len) buf).
    rewrite !app_assoc. rewrite skipn_app.
    rewrite skipn_all2 by (rewrite !length_app; cbn [length]; lia).
    rewrite !length_app. cbn [length app].
    rewrite skipn_skipn. f_equal. lia.
Qed.

(** Every call with [1 <= buflen <= sizeof buf] returns, leaves the size of
    the destination and the bytes after [buflen] as they were, and either
    reports absence without a write or leaves a terminated string. *)
Lemma xml_get_field_total (xml tag buf : bytes) (buflen : nat) :
  1 <= buflen <= length buf ->
  exists r buf',
    xml_get_field xml tag buf buflen = Some (r, buf')
    /\ length buf' = length buf
    /\ skipn buflen buf' = skipn buflen buf
    /\ ((r = 0%Z /\ buf' = buf) \/ (r = 1%Z /\ strlen buf' < buflen)).
Proof.
  intros Hb.
  destruct (extractor_cases xml tag) as [H | [[i [Ho Hc]] | [i [l [Ho Hc]]]]].
  - exists 0%Z, buf. rewrite xml_get_field_no_open by assumption.
    repeat (split; [reflexivity|]). left; split; reflexivity.
  - exists 0%Z, buf. rewrite (xml_get_field_no_close _ _ _ _ i) by assumption.
    repeat (split; [reflexivity|]). left; split; reflexivity.
  - destruct (xml_get_field_found xml tag buf buflen i l Ho Hc Hb) as [mid [E Hm]].
    assert (Hlen : copy_len buflen l < buflen).
    { unfold copy_len. destruct (Nat.leb_spec buflen l); lia. }
    eexists 1%Z, _. split; [exact E|].
    edestruct (found_shape (trim (firstn (copy_len buflen l) (inner_text xml tag i l)))
                 mid buf (copy_len buflen l) buflen) as (_ & Hs & _ & Hl & Hk).
    + apply nulfree_trim, nulfree_firstn. eapply inner_text_nulfree; eassumption.
    + exact Hm.
    + lia.
    + split; [exact Hl|]. split; [exact Hk|]. right. split; [reflexivity|].
      rewrite Hs. lia.
Qed.

(* ================================================================== *)
(** ** The marker test and the trigger tests                           *)
(* ================================================================== *)

Lemma cstr_cons (c : ascii) (p : bytes) :
  cstr (c :: p) = if Ascii.eqb c NUL then [] else c :: cstr p.
Proof. unfold cstr. simpl. now destruct (Ascii.eqb c NUL). Qed.

Lemma cstr_nil_iff (b : bytes) : cstr b = [] <-> peek b = NUL.
Proof.
  destruct b as [|c b]; [split; reflexivity|].
  rewrite cstr_cons. simpl.
  destruct (Ascii.eqb_spec c NUL); split; congruence.
Qed.

Lemma has_mult_iff (f : fields) :
  has_mult f = true <->
  cstr (f_mult1 f) <> [] \/ cstr (f_mult2 f) <> [] \/ cstr (f_mult3 f) <> [].
Proof.
  unfold has_mult. rewrite !orb_true_iff, !negb_true_iff, !cstr_nil_iff.
  assert (H : forall c, Ascii.eqb c NUL = false <-> c <> NUL).
  { intros c. destruct (Ascii.eqb_spec c NUL); split; congruence. }
  rewrite !H. tauto.
Qed.

Lemma strcasecmp_zero_iff (s t : bytes) :
  strcasecmp s t = 0%Z <-> ci_eq (cstr s) (cstr t).
Proof.
  unfold ci_eq. revert t; induction s as [|a s IH]; intros t.
  - cbn [strcasecmp]. change (cstr []) with (@nil ascii).
    destruct (Ascii.eqb_spec NUL (tolower (peek t))) as [E|E].
    + symmetry in E. apply tolower_NUL_iff, cstr_nil_iff in E. rewrite E.
      split; reflexivity.
    + split.
      * intros H. exfalso. apply E. apply (ascii_diff_zero NUL). exact H.
      * intros H. exfalso. apply E. symmetry. apply tolower_NUL_iff, cstr_nil_iff.
        destruct (cstr t); [reflexivity | discriminate H].
  - cbn [strcasecmp]. rewrite cstr_cons.
    destruct (Ascii.eqb_spec (tolower a) (tolower (peek t))) as [E|E].
    + destruct (Ascii.eqb_spec (tolower a) NUL) as [Ea|Ea].
      * assert (Et : cstr t = []).
        { apply cstr_nil_iff, tolower_NUL_iff. congruence. }
        apply (proj1 (tolower_NUL_iff a)) in Ea. rewrite Ea, Et.
        split; reflexivity.
      * assert (Ha : a <> NUL) by (intros ->; now apply Ea).
        destruct (Ascii.eqb_spec a NUL); [contradiction|].
        destruct t as [|b t]; [exfalso; now apply Ea|].
        cbn [peek hd tl] in *. rewrite cstr_cons.
        destruct (Ascii.eqb_spec b NUL) as [->|Hb]; [exfalso; now apply Ea|].
        rewrite IH. simpl. rewrite E. split; [intros ->; reflexivity|].
        intros H; now injection H.
    + split.
      * intros H. apply ascii_diff_zero in H. contradiction.
      * intros H. exfalso. apply E.
        destruct (Ascii.eqb_spec a NUL) as [->|Ha].
        -- symmetry in H. apply map_eq_nil in H.
           apply cstr_nil_iff in H. rewrite H. reflexivity.
        -- destruct t as [|b t]; [discriminate H|].
           rewrite cstr_cons in H.
           destruct (Ascii.eqb b NUL); [discriminate H|].
           simpl in H. now injection H.
Qed.

Lemma is_new_iff (f : fields) :
  is_new f = true <-> ci_eq (cstr (f_newqso f)) (lit "true").
Proof.
  unfold is_new. rewrite Z.eqb_eq, strcasecmp_zero_iff. reflexivity.
Qed.

Lemma trigger_iff (f : fields) :
  has_mult f && is_new f = true <-> trigger f.
Proof.
  unfold trigger. now rewrite andb_true_iff, has_mult_iff, is_new_iff.
Qed.

Lemma contactinfo_nulfree : nulfree contactinfo.
Proof.
  unfold nulfree, contactinfo. simpl.
  intros H; repeat (destruct H as [H|H]; [discriminate H|]); exact H.
Qed.

Lemma scan_contactinfo_iff (buf : bytes) (i n : nat) :
  scan_contactinfo buf i n = true <->
  exists j, i <= j < i + n /\ ci_occurs_at contactinfo buf j.
Proof.
  revert i; induction n as [|n IH]; intros i; cbn [scan_contactinfo].
  - split; [discriminate | intros [j [H _]]; lia].
  - destruct (Z.eqb_spec (strncasecmp (skipn i buf) contactinfo 13) 0) as [E|E].
    + split; [intros _ | reflexivity].
      exists i. split; [lia|].
      apply (strncasecmp_zero_iff contactinfo); [apply contactinfo_nulfree | exact E].
    + rewrite IH. split.
      * intros [j [Hj Ho]]. exists j. split; [lia | exact Ho].
      * intros [j [Hj Ho]]. exists j. split; [|exact Ho].
        destruct (Nat.eq_dec j i) as [->|]; [|lia].
        exfalso. apply E.
        apply (strncasecmp_zero_iff contactinfo); [apply contactinfo_nulfree | exact Ho].
Qed.

Lemma slice_firstn (buf : bytes) (len j n : nat) :
  j + n <= len ->
  firstn n (skipn j (firstn len buf)) = firstn n (skipn j buf).
Proof.
  intros H. rewrite skipn_firstn_comm, firstn_firstn.
  f_equal. lia.
Qed.

(** The marker loop succeeds exactly when the marker occurs, up to case,
    within the [len] bytes received. *)
Lemma found_ci_iff (buf : bytes) (len : nat) :
  found_ci buf len = true <-> ci_occurs contactinfo (firstn len buf).
Proof.
  unfold found_ci. rewrite scan_contactinfo_iff. unfold ci_occurs, ci_occurs_at.
  change (length contactinfo) with 13.
  split.
  - intros [j [Hj Ho]]. exists j. rewrite slice_firstn by lia. exact Ho.
  - intros [j Ho]. exists j.
    assert (Hl : j + 13 <= len).
    { apply ci_eq_length in Ho. change (length contactinfo) with 13 in Ho.
      rewrite length_firstn, length_skipn, length_firstn in Ho. lia. }
    split; [lia|]. rewrite slice_firstn in Ho by lia. exact Ho.
Qed.

(* ================================================================== *)
(** ** The eight extractions                                           *)
(* ================================================================== *)

Lemma zeros_length (n : nat) : length (zeros n) = n.
Proof. apply repeat_length. Qed.

Lemma extract_total (xml : bytes) (tag : string) (size : nat) :
  1 <= size ->
  exists r b,
    xml_get_field xml (lit tag) (zeros size) size = Some (r, b)
    /\ extract xml tag size = Some b
    /\ ((r = 0%Z /\ b = zeros size) \/ (r = 1%Z /\ strlen b < size)).
Proof.
  intros Hs.
  destruct (xml_get_field_total xml (lit tag) (zeros size) size)
    as (r & b & E & _ & _ & H).
  - rewrite zeros_length. lia.
  - exists r, b. split; [exact E|]. split; [|exact H].
    unfold extract. now rewrite E.
Qed.

(** The eight calls never overrun a field buffer. *)
Lemma extract_fields_total (xml : bytes) :
  exists f,
    extract_fields xml = Some f
    /\ forall tag size, In (tag, size) named_fields ->
         extract xml tag size = Some (field_of f tag).
Proof.
  destruct (extract_total xml "call" 64) as (? & b1 & _ & E1 & _); [lia|].
  destruct (extract_total xml "band" 32) as (? & b2 & _ & E2 & _); [lia|].
  destruct (extract_total xml "mode" 16) as (? & b3 & _ & E3 & _); [lia|].
  destruct (extract_total xml "mult1" 64) as (? & b4 & _ & E4 & _); [lia|].
  destruct (extract_total xml "mult2" 64) as (? & b5 & _ & E5 & _); [lia|].
  destruct (extract_total xml "mult3" 64) as (? & b6 & _ & E6 & _); [lia|].
  destruct (extract_total xml "newqso" 16) as (? & b7 & _ & E7 & _); [lia|].
  destruct (extract_total xml "xqso" 16) as (? & b8 & _ & E8 & _); [lia|].
  eexists. split.
  - unfold extract_fields. rewrite E1, E2, E3, E4, E5, E6, E7, E8. reflexivity.
  - intros tag size Hin. unfold named_fields in Hin.
    repeat (destruct Hin as [Hin|Hin];
            [injection Hin as <- <-; assumption|]).
    destruct Hin.
Qed.

(** Once the marker is found and the block allocated, the events are the
    eight extractor calls, the time stamp, the [PKT] text, the marker with
    its flush and [play_sound] when the two tests hold, and the end of
    line. *)
Lemma process_datagram_found (buf : bytes) (len : nat) (e : env) (f : fields) :
  found_ci buf len = true -> malloc_ok e = true ->
  extract_fields (firstn len buf ++ [NUL]) = Some f ->
  process_datagram buf len e =
    Some (extractor_calls ++ print_timestamp e ++ [Stdout (pkt_line e f)]
          ++ (if has_mult f && is_new f
              then [Stdout mult_marker; Fflush; Call_play_sound] else [])
          ++ [Stdout [nl]; Fflush]).
Proof.
  intros Hf Hm He. unfold process_datagram. now rewrite Hf, Hm, He.
Qed.

Lemma pkt_line_head (e : env) (f : fields) :
  exists rest, pkt_line e f = "P"%char :: rest.
Proof. eexists. reflexivity. Qed.

Lemma not_in_prefix (e : env) (f : fields) :
  ~ In Call_play_sound
      (extractor_calls ++ print_timestamp e ++ [Stdout (pkt_line e f)])
  /\ ~ In (Stdout mult_marker)
      (extractor_calls ++ print_timestamp e ++ [Stdout (pkt_line e f)]).
Proof.
  destruct (pkt_line_head e f) as [rest ->].
  split; intros H; apply in_app_or in H as [H|H].
  - unfold extractor_calls in H. simpl in H.
    repeat (destruct H as [H|H]; [discriminate H|]). exact H.
  - simpl in H. repeat (destruct H as [H|H]; [discriminate H|]). exact H.
  - unfold extractor_calls in H. simpl in H.
    repeat (destruct H as [H|H]; [discriminate H|]). exact H.
  - simpl in H. repeat (destruct H as [H|H]; [discriminate H|]). exact H.
Qed.

(* ================================================================== *)
(** ** Trigger rule and fast reject                                    *)
(* ================================================================== *)

(** The events of a datagram with the marker, once the copy of its text
    is allocated. *)
Lemma datagram_events (buf : bytes) (len : nat) (e : env) :
  ci_occurs contactinfo (firstn len buf) ->
  malloc_ok e = true ->
  exists f tr,
    extract_fields (firstn len buf ++ [NUL]) = Some f
    /\ process_datagram buf len e = Some tr
    /\ fires_exactly_on_trigger e f tr.
Proof.
  intros Hci Hm. apply (proj2 (found_ci_iff buf len)) in Hci.
  destruct (extract_fields_total (firstn len buf ++ [NUL])) as [f [Hf _]].
  exists f. eexists. split; [exact Hf|].
  split; [apply (process_datagram_found buf len e f); assumption|].
  destruct (not_in_prefix e f) as [Hp Hk].
  rewrite !in_app_iff in Hp, Hk. cbn [In] in Hp, Hk.
  unfold fires_exactly_on_trigger. rewrite <- trigger_iff.
  rewrite !in_app_iff.
  destruct (has_mult f && is_new f); cbn [In].
  - split; [|split; [|split]].
    + split; [reflexivity|]. intros _. tauto.
    + split; [reflexivity|]. intros _. tauto.
    + intros _. exists (extractor_calls ++ print_timestamp e).
      rewrite <- !app_assoc. reflexivity.
    + intros H. exfalso. now apply H.
  - split; [|split; [|split]].
    + split; [|discriminate]. intros H. exfalso.
      repeat match goal with K : _ \/ _ |- _ => destruct K as [K|K] end;
        try discriminate; tauto.
    + split; [|discriminate]. intros H. exfalso.
      repeat match goal with K : _ \/ _ |- _ => destruct K as [K|K] end;
        try discriminate; tauto.
    + discriminate.
    + intros _. exists (extractor_calls ++ print_timestamp e).
      rewrite <- !app_assoc. reflexivity.
Qed.

(** C1.  For a datagram that contains the marker (and whose text copy is
    allocated), the eight fields are extracted, and the sound trigger fires
    if and only if one of mult1, mult2, mult3 is a non-empty string and
    newqso equals "true" up to case: exactly then the MULT marker is
    printed after the PKT text and [play_sound] is called before the end of
    the line; otherwise neither happens. *)
Theorem C1_trigger_iff (buf : bytes) (len : nat) (e : env) :
  ci_occurs contactinfo (firstn len buf) ->
  malloc_ok e = true ->
  exists f tr,
    extract_fields (firstn len buf ++ [NUL]) = Some f
    /\ process_datagram buf len e = Some tr
    /\ fires_exactly_on_trigger e f tr.
Proof. exact (datagram_events buf len e). Qed.

(** C2.  A datagram in which the marker does not occur, up to case, within
    the received length produces no event at all: no output, no call of
    the field extractor, no call of [play_sound]. *)
Theorem C2_no_marker_no_output (buf : bytes) (len : nat) (e : env) :
  ~ ci_occurs contactinfo (firstn len buf) ->
  process_datagram buf len e = Some [].
Proof.
  intros H. unfold process_datagram.
  destruct (found_ci buf len) eqn:E; [|reflexivity].
  exfalso. apply H. now apply found_ci_iff.
Qed.

(* ================================================================== *)
(** ** Well-formed pairs                                               *)
(* ================================================================== *)

Lemma skipn_app_exact (a b : bytes) : skipn (length a) (a ++ b) = b.
Proof. induction a as [|x a IH]; simpl; [reflexivity | exact IH]. Qed.

Lemma firstn_app_exact (a b : bytes) : firstn (length a) (a ++ b) = a.
Proof. induction a as [|x a IH]; simpl; [reflexivity | now rewrite IH]. Qed.

Lemma strlen_app_ge (a b : bytes) : nulfree a -> length a <= strlen (a ++ b).
Proof.
  induction a as [|x a IH]; intros H; simpl; [lia|].
  apply nulfree_cons in H as [Hx Ha].
  destruct (Ascii.eqb_spec x NUL); [contradiction|].
  specialize (IH Ha). lia.
Qed.

Lemma pair_located (tag pre o inner c post : bytes) :
  nulfree tag -> length tag <= 60 ->
  well_formed_pair tag pre o inner c post ->
  let xml := pre ++ o ++ inner ++ c ++ post in
  open_at xml tag (length pre)
  /\ close_at xml tag (length pre) (length inner)
  /\ inner_text xml tag (length pre) (length inner) = inner.
Proof.
  intros Ht Hl (Hnf & Ho & Hc & Hfo & Hfc) xml.
  pose proof (ci_eq_length _ _ Ho) as Hlo.
  pose proof (ci_eq_length _ _ Hc) as Hlc.
  assert (Hafter : after_open xml tag (length pre) = inner ++ c ++ post).
  { unfold after_open, xml. rewrite open_tag_short by (assumption || lia).
    rewrite <- Hlo, Nat.add_comm, <- skipn_skipn, skipn_app_exact.
    apply skipn_app_exact. }
  apply nulfree_app in Hnf as [Hpre Hnf].
  apply nulfree_app in Hnf as [Hno Hnf].
  assert (Hlo' : 2 <= length o).
  { rewrite Hlo, !length_app. simpl. lia. }
  assert (Hlc' : 3 <= length c).
  { rewrite Hlc, !length_app. simpl. lia. }
  split; [|split].
  - unfold open_at, first_at. rewrite open_tag_short by (assumption || lia).
    split; [|split].
    + unfold xml. rewrite (app_assoc pre o).
      pose proof (strlen_app_ge (pre ++ o) (inner ++ c ++ post)) as H.
      rewrite nulfree_app, length_app in H. specialize (H (conj Hpre Hno)). lia.
    + unfold ci_occurs_at, xml. rewrite skipn_app_exact, <- Hlo, firstn_app_exact.
      exact Ho.
    + exact Hfo.
  - unfold close_at, first_at. rewrite Hafter.
    rewrite close_tag_short by assumption.
    split; [|split].
    + rewrite (app_assoc inner c).
      pose proof (strlen_app_ge (inner ++ c) post Hnf) as H.
      rewrite length_app in H. lia.
    + unfold ci_occurs_at. rewrite skipn_app_exact, <- Hlc, firstn_app_exact.
      exact Hc.
    + exact Hfc.
  - unfold inner_text. rewrite Hafter. apply firstn_app_exact.
Qed.

Lemma firstn_copy_len (buflen : nat) (inner : bytes) :
  1 <= buflen ->
  firstn (copy_len buflen (length inner)) inner = firstn (buflen - 1) inner.
Proof.
  intros H. unfold copy_len.
  destruct (Nat.leb_spec buflen (length inner)); [reflexivity|].
  now rewrite !firstn_all2 by lia.
Qed.

(* ================================================================== *)
(** ** Extraction of a field                                           *)
(* ================================================================== *)

(** C3, with the bounds the code imposes.  For a tag of at most 60 bytes and a document with a
    well-formed pair whose tags are the first opening tag and the first
    closing tag after it (matched up to case), [xml_get_field] returns 1 and
    the destination holds the inner text, cut to [buflen - 1] bytes, with
    leading and trailing white space removed; this is the exact trimmed
    inner text whenever the inner text is shorter than [buflen]. *)
Theorem C3_extracts_trimmed_inner_text
  (tag pre o inner c post buf : bytes) (buflen : nat) :
  nulfree tag -> length tag <= 60 ->
  well_formed_pair tag pre o inner c post ->
  1 <= buflen <= length buf ->
  exists buf',
    xml_get_field (pre ++ o ++ inner ++ c ++ post) tag buf buflen
      = Some (1%Z, buf')
    /\ cstr buf' = trim (firstn (buflen - 1) inner)
    /\ (length inner < buflen -> cstr buf' = trim inner).
Proof.
  intros Ht Hl Hw Hb.
  destruct (pair_located tag pre o inner c post Ht Hl Hw) as (Ho & Hc & Hi).
  destruct (xml_get_field_found _ tag buf buflen _ _ Ho Hc Hb) as [mid [E Hm]].
  rewrite Hi, firstn_copy_len in E, Hm by lia.
  eexists. split; [exact E|].
  assert (Hnf : nulfree (trim (firstn (buflen - 1) inner))).
  { apply nulfree_trim, nulfree_firstn. rewrite <- Hi.
    eapply inner_text_nulfree; eassumption. }
  rewrite cstr_app_NUL by exact Hnf.
  split; [reflexivity|].
  intros Hfit. now rewrite firstn_all2 by lia.
Qed.

(** C4, with the bound the code imposes.  For a tag of at most 60 bytes: when the opening tag occurs
    in the document and the closing tag occurs nowhere after its first
    match, [xml_get_field] returns 0 and leaves the destination alone,
    exactly as for a document without the opening tag. *)
Theorem C4_missing_close_is_absent (xml tag buf : bytes) (buflen i : nat) :
  nulfree tag -> length tag <= 60 ->
  first_at (lit "<" ++ tag ++ lit ">") xml i ->
  absent (lit "</" ++ tag ++ lit ">")
    (skipn (i + length (lit "<" ++ tag ++ lit ">")) xml) ->
  xml_get_field xml tag buf buflen = Some (0%Z, buf)
  /\ forall xml',
       absent (lit "<" ++ tag ++ lit ">") xml' ->
       xml_get_field xml' tag buf buflen = xml_get_field xml tag buf buflen.
Proof.
  intros Ht Hl Ho Hc.
  rewrite <- open_tag_short in Ho, Hc |- * by (assumption || lia).
  rewrite <- close_tag_short in Hc by assumption.
  assert (E : xml_get_field xml tag buf buflen = Some (0%Z, buf)).
  { now apply (xml_get_field_no_close xml tag buf buflen i). }
  split; [exact E|].
  intros xml' Ha. rewrite E. now apply xml_get_field_no_open.
Qed.

(** C5.  A call with [1 <= buflen <= sizeof buf] whose inner value does not
    fit ([buflen <= len0]) still returns 1; the destination holds the first
    [buflen - 1] bytes of the value, trimmed; its terminator lies within
    the first [buflen] bytes; and neither the size of the destination nor
    any byte after the first [buflen] changes, no write being refused. *)
Theorem C5_truncates_within_bounds
  (xml tag buf : bytes) (buflen i len0 : nat) :
  1 <= buflen <= length buf ->
  open_at xml tag i -> close_at xml tag i len0 ->
  buflen <= len0 ->
  exists buf',
    xml_get_field xml tag buf buflen = Some (1%Z, buf')
    /\ cstr buf' = trim (firstn (buflen - 1) (inner_text xml tag i len0))
    /\ strlen buf' < buflen
    /\ nth (strlen buf') buf' " "%char = NUL
    /\ length buf' = length buf
    /\ skipn buflen buf' = skipn buflen buf.
Proof.
  intros Hb Ho Hc Hlong.
  destruct (xml_get_field_found xml tag buf buflen i len0 Ho Hc Hb) as [mid [E Hm]].
  assert (Hcl : copy_len buflen len0 = buflen - 1).
  { unfold copy_len. destruct (Nat.leb_spec buflen len0); [reflexivity | lia]. }
  rewrite Hcl in E, Hm.
  eexists. split; [exact E|].
  edestruct (found_shape (trim (firstn (buflen - 1) (inner_text xml tag i len0)))
               mid buf (buflen - 1) buflen) as (H1 & H2 & H3 & H4 & H5).
  - apply nulfree_trim, nulfree_firstn. eapply inner_text_nulfree; eassumption.
  - exact Hm.
  - lia.
  - split; [exact H1|]. split; [rewrite H2; lia|].
    split; [exact H3|]. split; [exact H4 | exact H5].
Qed.

(* ================================================================== *)
(** ** Bytes after an embedded NUL                                     *)
(* ================================================================== *)

Lemma strncasecmp_app_NUL (s r t : bytes) (n : nat) :
  nulfree s -> strncasecmp (s ++ NUL :: r) t n = strncasecmp s t n.
Proof.
  revert s t; induction n as [|n IH]; intros s t Hs; [reflexivity|].
  destruct s as [|x s]; cbn [strncasecmp app peek hd tl].
  - change (tolower NUL) with NUL.
    destruct (Ascii.eqb NUL (tolower (peek t))); reflexivity.
  - apply nulfree_cons in Hs as [_ Hs]. now rewrite IH.
Qed.

Lemma find_tag_app_NUL (p r t : bytes) (n : nat) :
  nulfree p -> find_tag (p ++ NUL :: r) t n = find_tag p t n.
Proof.
  induction p as [|x p IH]; intros Hp; [reflexivity|].
  pose proof Hp as Hp'. apply nulfree_cons in Hp' as [Hx Hp'].
  cbn [find_tag app].
  destruct (Ascii.eqb_spec x NUL); [contradiction|].
  change (x :: p ++ NUL :: r) with ((x :: p) ++ NUL :: r).
  rewrite strncasecmp_app_NUL by assumption.
  now rewrite IH.
Qed.

Lemma memcpy_src_app (buf src x : bytes) (len : nat) :
  len <= length src -> memcpy buf (src ++ x) len = memcpy buf src len.
Proof.
  intros H. unfold memcpy. rewrite length_app, firstn_app.
  replace (len - length src) with 0 by lia. cbn [firstn]. rewrite app_nil_r.
  destruct (len <=? length buf); cbn [andb]; [|reflexivity].
  destruct (Nat.leb_spec len (length src)); [|lia].
  destruct (Nat.leb_spec len (length src + length x)); [reflexivity | lia].
Qed.

Lemma find_tag_le (p t : bytes) (n i : nat) :
  find_tag p t n = Some i -> i <= length p.
Proof.
  intros H. apply find_tag_lt in H. pose proof (strlen_le p). lia.
Qed.

(** The extractor reads its document up to the first NUL only. *)
Lemma xml_get_field_app_NUL (pre r tag buf : bytes) (buflen : nat) :
  nulfree pre ->
  xml_get_field (pre ++ NUL :: r) tag buf buflen
    = xml_get_field pre tag buf buflen.
Proof.
  intros Hp. unfold xml_get_field.
  rewrite find_tag_app_NUL by assumption.
  destruct (find_tag pre (open_tag tag) (strlen (open_tag tag))) as [i|] eqn:Ho;
    [|reflexivity].
  assert (Hi : i + strlen (open_tag tag) <= length pre).
  { apply find_open_Some in Ho as [Hlt [Hocc _]].
    apply ci_eq_length in Hocc. rewrite strlen_open_tag.
    rewrite length_firstn, length_skipn in Hocc.
    pose proof (strlen_le pre). lia. }
  rewrite skipn_app. replace (i + strlen (open_tag tag) - length pre) with 0 by lia.
  cbn [skipn].
  set (start := skipn (i + strlen (open_tag tag)) pre).
  assert (Hs : nulfree start) by now apply nulfree_skipn.
  rewrite find_tag_app_NUL by assumption.
  destruct (find_tag start (close_tag tag) (strlen (close_tag tag))) as [l|] eqn:Hc;
    [|reflexivity].
  destruct (buflen =? 0); [reflexivity|].
  apply find_tag_le in Hc.
  unfold store_trimmed. rewrite memcpy_src_app; [reflexivity|].
  destruct (Nat.leb_spec buflen l); lia.
Qed.

Lemma absent_of_not_occurs (t p : bytes) : ~ ci_occurs t p -> absent t p.
Proof. intros H j _ Hj. apply H. now exists j. Qed.

(* ================================================================== *)
(** ** Fields whose extraction fails                                   *)
(* ================================================================== *)

Lemma failed_extraction (xml tag buf : bytes) (buflen : nat) :
  extraction_fails xml tag ->
  xml_get_field xml tag buf buflen = Some (0%Z, buf).
Proof.
  intros [H | [i [Ho Hc]]].
  - now apply xml_get_field_no_open.
  - now apply (xml_get_field_no_close xml tag buf buflen i).
Qed.

Lemma field_kept_empty (xml : bytes) (f : fields) (tag : string) (size : nat) :
  extract_fields xml = Some f ->
  In (tag, size) named_fields ->
  extraction_fails xml (lit tag) ->
  field_of f tag = zeros size.
Proof.
  intros Hf Hin Hfail.
  destruct (extract_fields_total xml) as [f' [Hf' Hall]].
  rewrite Hf in Hf'. injection Hf' as <-.
  specialize (Hall tag size Hin). unfold extract in Hall.
  rewrite (failed_extraction _ _ _ _ Hfail) in Hall.
  cbn [bind snd] in Hall. now injection Hall.
Qed.

Lemma or_dash_zeros (n : nat) : or_dash (zeros n) = lit "-".
Proof. destruct n; reflexivity. Qed.

Lemma cstr_zeros (n : nat) : cstr (zeros n) = [].
Proof. destruct n; reflexivity. Qed.

(** A printed field that is all zeros is printed as a dash. *)
Lemma rendered_dash (f : fields) (tag : string) (size : nat) :
  In (tag, size) named_fields -> tag <> "xqso"%string ->
  field_of f tag = zeros size ->
  exists sep w, In (sep, tag, w, lit "-") (rendered f).
Proof.
  intros Hin Hx Hz. unfold named_fields in Hin.
  repeat (destruct Hin as [Hin|Hin];
          [injection Hin as <- <-;
           cbv [field_of String.eqb Ascii.eqb Bool.eqb andb] in Hz;
           try (exfalso; now apply Hx);
           unfold rendered; rewrite Hz, or_dash_zeros; cbn [In];
           do 2 eexists; repeat first [left; reflexivity | right]|]).
  destruct Hin.
Qed.

(** No conversion of the [PKT] format prints xqso. *)
Lemma xqso_not_rendered (f : fields) (sep : string) (w : nat) (v : bytes) :
  ~ In (sep, "xqso"%string, w, v) (rendered f).
Proof.
  unfold rendered. cbn [In]. intros H.
  repeat (destruct H as [H|H]; [discriminate H|]). exact H.
Qed.

(** C9, for the fields the log line prints.  In a datagram that is processed, for each of the eight
    named fields whose extraction fails, [xml_get_field] returns 0 and
    leaves the destination as it was, so the field is still the empty
    string; each of the seven fields the log line prints (all but xqso)
    is then printed as a dash. *)
Theorem C9_failed_field_stays_empty
  (buf : bytes) (len : nat) (e : env) (tag : string) (size : nat) :
  ci_occurs contactinfo (firstn len buf) ->
  malloc_ok e = true ->
  In (tag, size) named_fields ->
  extraction_fails (firstn len buf ++ [NUL]) (lit tag) ->
  xml_get_field (firstn len buf ++ [NUL]) (lit tag) (zeros size) size
    = Some (0%Z, zeros size)
  /\ exists f tr,
       extract_fields (firstn len buf ++ [NUL]) = Some f
       /\ process_datagram buf len e = Some tr
       /\ In (Stdout (pkt_line e f)) tr
       /\ field_of f tag = zeros size
       /\ cstr (field_of f tag) = []
       /\ (tag <> "xqso"%string ->
           exists sep w, In (sep, tag, w, lit "-") (rendered f)).
Proof.
  intros Hci Hm Hin Hfail.
  split; [now apply failed_extraction|].
  destruct (datagram_events buf len e Hci Hm) as (f & tr & Hf & Htr & _ & _ & H1 & H2).
  exists f, tr.
  pose proof (field_kept_empty _ _ _ _ Hf Hin Hfail) as Hz.
  split; [exact Hf|]. split; [exact Htr|].
  split; [|split; [exact Hz|split]].
  - destruct (has_mult f && is_new f) eqn:E.
    + apply trigger_iff in E. destruct (H1 E) as [pre ->].
      apply in_or_app. right. now left.
    + assert (Hn : ~ trigger f).
      { intros T. apply trigger_iff in T. congruence. }
      destruct (H2 Hn) as [pre ->]. apply in_or_app. right. now left.
  - rewrite Hz. apply cstr_zeros.
  - intros Hx. now apply (rendered_dash f tag size).
Qed.

(* ================================================================== *)
(** ** Tags after an embedded NUL                                      *)
(* ================================================================== *)

Lemma ci_occurs_app_r (t a r : bytes) : ci_occurs t r -> ci_occurs t (a ++ r).
Proof.
  intros [j H]. exists (length a + j). unfold ci_occurs_at in *.
  rewrite skipn_app, skipn_all2 by lia.
  replace (length a + j - length a) with j by lia. exact H.
Qed.

Lemma all_fields_empty (f : fields) :
  (forall tag size, In (tag, size) named_fields -> field_of f tag = zeros size) ->
  f = {| f_call := zeros 64; f_band := zeros 32; f_mode := zeros 16;
         f_mult1 := zeros 64; f_mult2 := zeros 64; f_mult3 := zeros 64;
         f_newqso := zeros 16; f_xqso := zeros 16 |}.
Proof.
  intros H. destruct f as [a b c d e1 e2 g h].
  pose proof (H "call"%string 64) as H1.
  pose proof (H "band"%string 32) as H2.
  pose proof (H "mode"%string 16) as H3.
  pose proof (H "mult1"%string 64) as H4.
  pose proof (H "mult2"%string 64) as H5.
  pose proof (H "mult3"%string 64) as H6.
  pose proof (H "newqso"%string 16) as H7.
  pose proof (H "xqso"%string 16) as H8.
  cbv [field_of String.eqb Ascii.eqb Bool.eqb andb f_call f_band f_mode
       f_mult1 f_mult2 f_mult3 f_newqso f_xqso] in H1, H2, H3, H4, H5, H6, H7, H8.
  unfold named_fields in *. cbn [In] in *.
  rewrite H1, H2, H3, H4, H5, H6, H7, H8 by tauto. reflexivity.
Qed.

Lemma no_fields_all_dashes (sep label : string) (w : nat) (v : bytes) :
  In (sep, label, w, v) (rendered no_fields) -> v = lit "-".
Proof.
  unfold rendered. cbn [In]. intros H.
  repeat (destruct H as [H|H]; [now injection H as _ _ _ <-|]). destruct H.
Qed.

Lemma no_fields_no_trigger : ~ trigger no_fields.
Proof.
  intros [[H|[H|H]] _]; now apply H.
Qed.

(** C10.  In a datagram with an embedded NUL, the marker test reads the
    bytes after the NUL while the extractor reads only those before it.
    Hence, when the marker lies after the NUL and no opening tag of the
    eight fields occurs before it, the datagram still gets its log line
    (once its copy is allocated), every field of that line is a dash, and
    no sound is played. *)
Theorem C10_tags_after_embedded_nul (pre rest : bytes) (e : env) :
  nulfree pre ->
  ci_occurs contactinfo rest ->
  (forall tag size, In (tag, size) named_fields ->
     ~ ci_occurs (open_tag (lit tag)) pre) ->
  malloc_ok e = true ->
  let buf := pre ++ NUL :: rest in
  found_ci buf (length buf) = true
  /\ (forall tag dst n,
        xml_get_field (firstn (length buf) buf ++ [NUL]) tag dst n
          = xml_get_field pre tag dst n)
  /\ exists f tr,
       process_datagram buf (length buf) e = Some tr
       /\ In (Stdout (pkt_line e f)) tr
       /\ (forall sep label w v, In (sep, label, w, v) (rendered f) -> v = lit "-")
       /\ ~ In Call_play_sound tr.
Proof.
  intros Hpre Hci Htags Hm buf.
  assert (Hocc : ci_occurs contactinfo (firstn (length buf) buf)).
  { rewrite firstn_all. unfold buf.
    apply ci_occurs_app_r. now apply (ci_occurs_app_r contactinfo [NUL]). }
  assert (Hxml : firstn (length buf) buf ++ [NUL] = pre ++ NUL :: (rest ++ [NUL])).
  { rewrite firstn_all. unfold buf. now rewrite <- app_assoc. }
  split; [now apply found_ci_iff|].
  split.
  { intros tag dst n. rewrite Hxml. now apply xml_get_field_app_NUL. }
  destruct (datagram_events buf (length buf) e Hocc Hm)
    as (f & tr & Hf & Htr & Hplay & _ & _ & Hline).
  assert (Hempty : f = no_fields).
  { apply all_fields_empty. intros tag size Hin.
    apply (field_kept_empty _ _ _ _ Hf Hin).
    left. apply find_open_None. rewrite Hxml.
    rewrite find_tag_app_NUL by assumption.
    apply find_open_None, absent_of_not_occurs. now apply (Htags tag size). }
  subst f. exists no_fields, tr.
  split; [exact Htr|]. split; [|split].
  - destruct (Hline no_fields_no_trigger) as [p ->].
    apply in_or_app. right. now left.
  - apply no_fields_all_dashes.
  - intros H. apply Hplay in H. now apply no_fields_no_trigger.
Qed.

(* ================================================================== *)
(** ** The listener loop                                               *)
(* ================================================================== *)

Lemma found_ci_prefix (buf : bytes) (n : nat) :
  found_ci (firstn n buf) n = found_ci buf n.
Proof.
  apply Bool.eq_iff_eq_true. rewrite !found_ci_iff, firstn_firstn, Nat.min_id.
  reflexivity.
Qed.

(** [process_datagram] reads the [len] bytes received and nothing else of
    the receive buffer. *)
Lemma process_datagram_prefix (buf : bytes) (n : nat) (e : env) :
  process_datagram (firstn n buf) n e = process_datagram buf n e.
Proof.
  unfold process_datagram.
  now rewrite found_ci_prefix, firstn_firstn, Nat.min_id.
Qed.

Lemma process_datagram_total (buf : bytes) (n : nat) (e : env) :
  exists tr, process_datagram buf n e = Some tr.
Proof.
  unfold process_datagram.
  destruct (found_ci buf n); cbn [negb]; [|now eexists].
  destruct (malloc_ok e); cbn [negb]; [|now eexists].
  destruct (extract_fields_total (firstn n buf ++ [NUL])) as [f [-> _]].
  now eexists.
Qed.

Lemma received_prefix (data buf : bytes) (n : nat) :
  n <= length data -> firstn n (firstn n data ++ skipn n buf) = firstn n data.
Proof.
  intros H. rewrite firstn_app, length_firstn.
  replace (n - Nat.min n (length data)) with 0 by lia.
  cbn [firstn]. now rewrite app_nil_r, firstn_firstn, Nat.min_id.
Qed.

(** What the loop does is the same whatever the receive buffer held. *)
Lemma listen_buf_irrel (inputs : list recv) (buf1 buf2 : bytes) :
  listen buf1 inputs = listen buf2 inputs.
Proof.
  revert buf1 buf2; induction inputs as [|[|data e] rest IH]; intros buf1 buf2;
    cbn [listen].
  - reflexivity.
  - now rewrite (IH buf1 buf2).
  - set (n := Nat.min (length data) 65535).
    assert (Hn : n <= length data) by apply Nat.le_min_l.
    rewrite <- (process_datagram_prefix (firstn n data ++ skipn n buf1)).
    rewrite <- (process_datagram_prefix (firstn n data ++ skipn n buf2)).
    rewrite !received_prefix by assumption.
    now rewrite (IH (firstn n data ++ skipn n buf1) (firstn n data ++ skipn n buf2)).
Qed.

Lemma listen_total (inputs : list recv) (buf : bytes) :
  exists tr, listen buf inputs = Some tr.
Proof.
  revert buf; induction inputs as [|[|data e] rest IH]; intros buf; cbn [listen].
  - now eexists.
  - destruct (IH buf) as [tr ->]. now eexists.
  - set (n := Nat.min (length data) 65535).
    destruct (process_datagram_total (firstn n data ++ skipn n buf) n e) as [t1 ->].
    destruct (IH (firstn n data ++ skipn n buf)) as [t2 ->]. now eexists.
Qed.

Lemma listen_cons (buf : bytes) (x : recv) (rest : list recv) :
  listen buf (x :: rest) =
    t1 <- listen buf [x] ;; t2 <- listen buf rest ;; Some (t1 ++ t2).
Proof.
  destruct x as [|data e]; cbn [listen bind].
  - destruct (listen buf rest); reflexivity.
  - set (n := Nat.min (length data) 65535).
    rewrite (listen_buf_irrel rest (firstn n data ++ skipn n buf) buf).
    destruct (process_datagram (firstn n data ++ skipn n buf) n e); cbn [bind];
      [|reflexivity].
    destruct (listen buf rest); cbn [bind]; [|reflexivity].
    now rewrite app_nil_r.
Qed.

Lemma listen_app (buf : bytes) (a b : list recv) :
  listen buf (a ++ b) =
    t1 <- listen buf a ;; t2 <- listen buf b ;; Some (t1 ++ t2).
Proof.
  induction a as [|x a IH].
  - cbn [app listen bind]. destruct (listen buf b); reflexivity.
  - cbn [app]. rewrite (listen_cons buf x (a ++ b)), (listen_cons buf x a), IH.
    destruct (listen buf [x]); cbn [bind]; [|reflexivity].
    destruct (listen buf a); cbn [bind]; [|reflexivity].
    destruct (listen buf b); cbn [bind]; [|reflexivity].
    now rewrite app_assoc.
Qed.

Lemma failure_events (buf : bytes) (x : recv) (msg : bytes) :
  failure x msg -> listen buf [x] = Some [Perror msg].
Proof.
  intros [|data e Hci Hm]; cbn [listen bind]; [reflexivity|].
  set (n := Nat.min (length data) 65535).
  assert (Hn : n <= length data) by apply Nat.le_min_l.
  rewrite <- process_datagram_prefix, received_prefix by assumption.
  assert (Hf : found_ci (firstn n data) n = true).
  { apply found_ci_iff. rewrite firstn_firstn, Nat.min_id.
    unfold n. destruct (Nat.min_spec (length data) 65535) as [[Hlt ->]|[_ ->]].
    - rewrite firstn_all2 in Hci by (apply Nat.lt_le_incl; exact Hlt).
      now rewrite firstn_all.
    - exact Hci. }
  unfold process_datagram. rewrite Hf, Hm. reflexivity.
Qed.

(** C8.  A failed receive, and a failed allocation for a datagram that
    contains the marker, each leave one [perror] message and nothing on
    standard output; the loop goes on: the datagrams before and after are
    processed as they would be without the failure, and the program is
    still listening. *)
Theorem C8_failures_do_not_stop_the_loop
  (before after : list recv) (x : recv) (msg : bytes) :
  failure x msg ->
  exists tr1 tr2,
    main true true before = Some (Listening, startup ++ tr1)
    /\ main true true after = Some (Listening, startup ++ tr2)
    /\ main true true (before ++ x :: after)
       = Some (Listening, startup ++ tr1 ++ [Perror msg] ++ tr2).
Proof.
  intros Hx. unfold main. cbn [negb].
  destruct (listen_total before (zeros 65536)) as [tr1 H1].
  destruct (listen_total after (zeros 65536)) as [tr2 H2].
  exists tr1, tr2.
  rewrite listen_app, listen_cons, H1, H2, (failure_events _ _ _ Hx).
  cbn [bind]. repeat split.
Qed.

(* ================================================================== *)
(** ** The two tone loops                                              *)
(* ================================================================== *)

Module ToneFacts.

Import Tone.

Lemma int_wrap_range (z : Z) : (- 2 ^ 31 <= int_wrap z < 2 ^ 31)%Z.
Proof.
  unfold int_wrap.
  pose proof (Z.mod_pos_bound (z + 2 ^ 31) (2 ^ 32) ltac:(lia)). lia.
Qed.

Lemma int_wrap_id (z : Z) : (- 2 ^ 31 <= z < 2 ^ 31)%Z -> int_wrap z = z.
Proof.
  intros H. unfold int_wrap. rewrite Z.mod_small by lia. lia.
Qed.

Lemma store_sample_at (pre rest : list Z) (r v : Z) (k : nat) :
  length pre = k ->
  store_sample (pre ++ r :: rest) (Z.of_nat k) v = pre ++ v :: rest.
Proof.
  intros <-. unfold store_sample. rewrite Nat2Z.id.
  rewrite firstn_app, Nat.sub_diag, firstn_all. cbn [firstn].
  rewrite app_nil_r, skipn_app.
  replace (S (length pre) - length pre) with 1 by lia.
  rewrite skipn_all2 by lia. reflexivity.
Qed.

Section Loops.

Variable sin : double -> double.
Variables SAMPLE_RATE BEEP_FREQ_HZ BEEP_DURATION : Z.
Variable BEEP_VOLUME : double.

Abbreviation beep_num := (beep_num_samples SAMPLE_RATE BEEP_DURATION).
Abbreviation alsa_num := (alsa_num_samples SAMPLE_RATE BEEP_DURATION).
Abbreviation sample := (tone_sample sin SAMPLE_RATE BEEP_FREQ_HZ BEEP_VOLUME).
Abbreviation beep := (beep_samples sin SAMPLE_RATE BEEP_FREQ_HZ BEEP_DURATION BEEP_VOLUME).
Abbreviation alsa := (alsa_samples sin SAMPLE_RATE BEEP_FREQ_HZ BEEP_DURATION BEEP_VOLUME).

(** The cast to [int] in strategy 2 changes nothing. *)
Lemma num_samples_agree : beep_num = alsa_num.
Proof.
  unfold beep_num_samples, alsa_num_samples.
  set (x := int_wrap (SAMPLE_RATE * BEEP_DURATION)).
  pose proof (int_wrap_range (SAMPLE_RATE * BEEP_DURATION)) as Hx. fold x in Hx.
  apply int_wrap_id.
  destruct (Z.le_gt_cases 0 x) as [Hp|Hn].
  - pose proof (Z.quot_pos x 1000 Hp ltac:(lia)).
    pose proof (Z.quot_le_upper_bound x 1000 x ltac:(lia) ltac:(lia)). lia.
  - assert (Hq : (Z.quot x 1000 = - Z.quot (- x) 1000)%Z).
    { rewrite Z.quot_opp_l by lia. lia. }
    pose proof (Z.quot_pos (- x) 1000 ltac:(lia) ltac:(lia)).
    pose proof (Z.quot_le_upper_bound (- x) 1000 (- x) ltac:(lia) ltac:(lia)).
    lia.
Qed.

Lemma beep_loop_S (n : nat) (i : Z) (samples : list Z) :
  beep_loop sin SAMPLE_RATE BEEP_FREQ_HZ BEEP_DURATION BEEP_VOLUME (S n) i samples
  = beep_loop sin SAMPLE_RATE BEEP_FREQ_HZ BEEP_DURATION BEEP_VOLUME n (i + 1)
      (store_sample samples i (sample beep_num i)).
Proof. reflexivity. Qed.

Lemma alsa_loop_S (n : nat) (i : Z) (samples : list Z) :
  alsa_loop sin SAMPLE_RATE BEEP_FREQ_HZ BEEP_DURATION BEEP_VOLUME (S n) i samples
  = alsa_loop sin SAMPLE_RATE BEEP_FREQ_HZ BEEP_DURATION BEEP_VOLUME n (i + 1)
      (store_sample samples i (sample alsa_num i)).
Proof. reflexivity. Qed.

(** After [n] more iterations from index [k] the next [n] elements hold
    their samples, whatever they held before. *)
Lemma beep_loop_spec (n k : nat) (pre rest : list Z) :
  length pre = k -> length rest = n ->
  beep_loop sin SAMPLE_RATE BEEP_FREQ_HZ BEEP_DURATION BEEP_VOLUME
    n (Z.of_nat k) (pre ++ rest)
  = pre ++ map (fun j => sample beep_num (Z.of_nat j)) (seq k n).
Proof.
  revert k pre rest; induction n as [|n IH]; intros k pre rest Hk Hr.
  - destruct rest; [|discriminate Hr]. reflexivity.
  - destruct rest as [|r rest]; [discriminate Hr|].
    rewrite beep_loop_S, store_sample_at by assumption.
    replace (Z.of_nat k + 1)%Z with (Z.of_nat (S k)) by lia.
    change (pre ++ sample beep_num (Z.of_nat k) :: rest)
      with (pre ++ [sample beep_num (Z.of_nat k)] ++ rest).
    rewrite app_assoc, IH.
    + rewrite <- app_assoc. reflexivity.
    + rewrite length_app. cbn [length]. lia.
    + now injection Hr.
Qed.

Lemma alsa_loop_spec (n k : nat) (pre rest : list Z) :
  length pre = k -> length rest = n ->
  alsa_loop sin SAMPLE_RATE BEEP_FREQ_HZ BEEP_DURATION BEEP_VOLUME
    n (Z.of_nat k) (pre ++ rest)
  = pre ++ map (fun j => sample alsa_num (Z.of_nat j)) (seq k n).
Proof.
  revert k pre rest; induction n as [|n IH]; intros k pre rest Hk Hr.
  - destruct rest; [|discriminate Hr]. reflexivity.
  - destruct rest as [|r rest]; [discriminate Hr|].
    rewrite alsa_loop_S, store_sample_at by assumption.
    replace (Z.of_nat k + 1)%Z with (Z.of_nat (S k)) by lia.
    change (pre ++ sample alsa_num (Z.of_nat k) :: rest)
      with (pre ++ [sample alsa_num (Z.of_nat k)] ++ rest).
    rewrite app_assoc, IH.
    + rewrite <- app_assoc. reflexivity.
    + rewrite length_app. cbn [length]. lia.
    + now injection Hr.
Qed.

Lemma beep_samples_tone (block : list Z) :
  length block = Z.to_nat beep_num ->
  beep block = tone sin SAMPLE_RATE BEEP_FREQ_HZ BEEP_VOLUME beep_num.
Proof.
  intros H. unfold beep_samples.
  apply (beep_loop_spec (Z.to_nat beep_num) 0 [] block eq_refl H).
Qed.

Lemma alsa_samples_tone (block : list Z) :
  length block = Z.to_nat alsa_num ->
  alsa block = tone sin SAMPLE_RATE BEEP_FREQ_HZ BEEP_VOLUME alsa_num.
Proof.
  intros H. unfold alsa_samples.
  apply (alsa_loop_spec (Z.to_nat alsa_num) 0 [] block eq_refl H).
Qed.

Lemma tone_nth (num i : Z) :
  (0 <= i < num)%Z ->
  nth (Z.to_nat i) (tone sin SAMPLE_RATE BEEP_FREQ_HZ BEEP_VOLUME num) 0%Z
  = sample num i.
Proof.
  intros H. unfold tone.
  rewrite (nth_indep _ 0%Z (sample num (Z.of_nat 0)))
    by (rewrite length_map, length_seq; lia).
  rewrite (map_nth (fun k => sample num (Z.of_nat k))).
  rewrite seq_nth by lia. cbn [Nat.add]. now rewrite Z2Nat.id by lia.
Qed.

(** C6.  Started on blocks of [num_samples] elements (whatever [malloc]
    left in them), the loop of strategy 2 and the loop of strategy 3
    leave the same sequence of 16-bit samples, element by element the
    closed-form sample of its index; each loop leaves the same sequence
    on every run with the same frequency, duration, volume and rate. *)
Theorem C6_tone_loops_agree (block1 block2 : list Z) :
  length block1 = Z.to_nat (beep_num_samples SAMPLE_RATE BEEP_DURATION) ->
  length block2 = Z.to_nat (alsa_num_samples SAMPLE_RATE BEEP_DURATION) ->
  beep_samples sin SAMPLE_RATE BEEP_FREQ_HZ BEEP_DURATION BEEP_VOLUME block1
    = alsa_samples sin SAMPLE_RATE BEEP_FREQ_HZ BEEP_DURATION BEEP_VOLUME block2
  /\ beep_samples sin SAMPLE_RATE BEEP_FREQ_HZ BEEP_DURATION BEEP_VOLUME block1
     = beep_samples sin SAMPLE_RATE BEEP_FREQ_HZ BEEP_DURATION BEEP_VOLUME block2
  /\ alsa_samples sin SAMPLE_RATE BEEP_FREQ_HZ BEEP_DURATION BEEP_VOLUME block1
     = alsa_samples sin SAMPLE_RATE BEEP_FREQ_HZ BEEP_DURATION BEEP_VOLUME block2
  /\ forall i,
       (0 <= i < beep_num_samples SAMPLE_RATE BEEP_DURATION)%Z ->
       nth (Z.to_nat i)
           (beep_samples sin SAMPLE_RATE BEEP_FREQ_HZ BEEP_DURATION BEEP_VOLUME block1)
           0%Z
         = tone_sample sin SAMPLE_RATE BEEP_FREQ_HZ BEEP_VOLUME
             (beep_num_samples SAMPLE_RATE BEEP_DURATION) i
       /\ nth (Z.to_nat i)
              (alsa_samples sin SAMPLE_RATE BEEP_FREQ_HZ BEEP_DURATION BEEP_VOLUME block2)
              0%Z
          = tone_sample sin SAMPLE_RATE BEEP_FREQ_HZ BEEP_VOLUME
              (beep_num_samples SAMPLE_RATE BEEP_DURATION) i.
Proof.
  intros H1 H2.
  pose proof num_samples_agree as Hn.
  assert (H1' : length block1 = Z.to_nat alsa_num) by congruence.
  assert (H2' : length block2 = Z.to_nat beep_num) by congruence.
  rewrite (beep_samples_tone block1 H1), (beep_samples_tone block2 H2').
  rewrite (alsa_samples_tone block1 H1'), (alsa_samples_tone block2 H2).
  rewrite <- Hn.
  repeat split; apply tone_nth; assumption.
Qed.

End Loops.

(** The conversion to [short] drops the fraction, whatever its size. *)
Example short_of_double_truncates :
  short_of_double (PrimFloat.div (double_of_int 11) (double_of_int 4)) = 2%Z
  /\ short_of_double (PrimFloat.div (double_of_int (-11)) (double_of_int 4))
     = (-2)%Z.
Proof. split; reflexivity. Qed.

Lemma C6_witness :
  let sinf := fun x : double => x in
  let vol := volume_0_6 in
  let block1 := repeat 0%Z 20 in
  let block2 := repeat 7%Z 20 in
  length block1 = Z.to_nat (beep_num_samples 1000 20)
  /\ length block2 = Z.to_nat (alsa_num_samples 1000 20)
  /\ beep_samples sinf 1000 100 20 vol block1
       = alsa_samples sinf 1000 100 20 vol block2.
Proof.
  split; [reflexivity|]. split; [reflexivity|].
  exact (proj1 (C6_tone_loops_agree (fun x : double => x) 1000 100 20
                  volume_0_6
                  (repeat 0%Z 20) (repeat 7%Z 20) eq_refl eq_refl)).
Defined.

End ToneFacts.

(* ================================================================== *)
(** ** Concrete runs                                                   *)
(* ================================================================== *)

Lemma not_occurs_short (t s : bytes) : length s < length t -> ~ ci_occurs t s.
Proof.
  intros Hl [j H]. apply ci_eq_length in H.
  rewrite length_firstn, length_skipn in H. lia.
Qed.

Lemma dg_mult_has_marker :
  ci_occurs contactinfo (firstn (length dg_mult) dg_mult).
Proof. exists 0. reflexivity. Defined.

Lemma dg_noband_has_marker :
  ci_occurs contactinfo (firstn (length dg_noband) dg_noband).
Proof. exists 0. reflexivity. Defined.

Lemma C1_witness :
  ci_occurs contactinfo (firstn (length dg_mult) dg_mult)
  /\ malloc_ok env0 = true
  /\ exists f tr,
       extract_fields (firstn (length dg_mult) dg_mult ++ [NUL]) = Some f
       /\ process_datagram dg_mult (length dg_mult) env0 = Some tr
       /\ fires_exactly_on_trigger env0 f tr.
Proof.
  split; [exact dg_mult_has_marker|]. split; [reflexivity|].
  exact (C1_trigger_iff dg_mult (length dg_mult) env0 dg_mult_has_marker eq_refl).
Defined.

Lemma hello_has_no_marker :
  ~ ci_occurs contactinfo (firstn 11 (lit "hello world")).
Proof. apply not_occurs_short. vm_compute. lia. Defined.

Lemma C2_witness :
  ~ ci_occurs contactinfo (firstn 11 (lit "hello world"))
  /\ process_datagram (lit "hello world") 11 env0 = Some [].
Proof.
  split; [exact hello_has_no_marker|].
  exact (C2_no_marker_no_output (lit "hello world") 11 env0 hello_has_no_marker).
Defined.

Lemma mult1_pair_well_formed :
  well_formed_pair (lit "mult1") (lit "<a>") (lit "<Mult1>") (lit " 10 ")
    (lit "</MULT1>") (lit "</a>").
Proof.
  split; [apply nulfree_by_strlen; reflexivity|].
  split; [reflexivity|]. split; [reflexivity|]. split.
  - apply (no_earlier_by_search _ _ 3); reflexivity.
  - apply (no_earlier_by_search _ _ 4); reflexivity.
Defined.

Lemma C3_witness :
  nulfree (lit "mult1") /\ length (lit "mult1") <= 60
  /\ well_formed_pair (lit "mult1") (lit "<a>") (lit "<Mult1>") (lit " 10 ")
       (lit "</MULT1>") (lit "</a>")
  /\ 1 <= 64 <= length (zeros 64)
  /\ exists buf',
       xml_get_field
         (lit "<a>" ++ lit "<Mult1>" ++ lit " 10 " ++ lit "</MULT1>" ++ lit "</a>")
         (lit "mult1") (zeros 64) 64 = Some (1%Z, buf')
       /\ cstr buf' = trim (firstn (64 - 1) (lit " 10 "))
       /\ (length (lit " 10 ") < 64 -> cstr buf' = trim (lit " 10 ")).
Proof.
  assert (Hn : nulfree (lit "mult1")) by (apply nulfree_by_strlen; reflexivity).
  assert (Hl : length (lit "mult1") <= 60) by (vm_compute; lia).
  assert (Hb : 1 <= 64 <= length (zeros 64)) by (rewrite zeros_length; lia).
  split; [exact Hn|]. split; [exact Hl|].
  split; [exact mult1_pair_well_formed|]. split; [exact Hb|].
  exact (C3_extracts_trimmed_inner_text (lit "mult1") (lit "<a>") (lit "<Mult1>")
           (lit " 10 ") (lit "</MULT1>") (lit "</a>") (zeros 64) 64
           Hn Hl mult1_pair_well_formed Hb).
Defined.

(** C3 as worded fails on a value longer than its destination: the 17
    bytes of this mode value are cut to the 15 that fit in [mode[16]]. *)
Lemma C3_counterexample :
  well_formed_pair (lit "mode") [] (lit "<mode>") (lit "RTTY-CONTEST-MODE")
    (lit "</mode>") []
  /\ xml_get_field dg_longmode (lit "mode") (zeros 16) 16
       = Some (1%Z, lit "RTTY-CONTEST-MO" ++ [NUL])
  /\ cstr (lit "RTTY-CONTEST-MO" ++ [NUL]) = lit "RTTY-CONTEST-MO"
  /\ lit "RTTY-CONTEST-MO" <> trim (lit "RTTY-CONTEST-MODE").
Proof.
  split; [|split; [vm_compute; reflexivity|split; [reflexivity|]]].
  - split; [apply nulfree_by_strlen; reflexivity|].
    split; [reflexivity|]. split; [reflexivity|]. split.
    + intros j Hj. cbn [length] in Hj. lia.
    + apply (no_earlier_by_search _ _ 17); reflexivity.
  - vm_compute. discriminate.
Qed.

Lemma C4_witness :
  nulfree (lit "call") /\ length (lit "call") <= 60
  /\ first_at (lit "<" ++ lit "call" ++ lit ">") (lit "<a><call>W1AW") 3
  /\ absent (lit "</" ++ lit "call" ++ lit ">")
       (skipn (3 + length (lit "<" ++ lit "call" ++ lit ">")) (lit "<a><call>W1AW"))
  /\ xml_get_field (lit "<a><call>W1AW") (lit "call") (zeros 64) 64
       = Some (0%Z, zeros 64).
Proof.
  assert (Hn : nulfree (lit "call")) by (apply nulfree_by_strlen; reflexivity).
  assert (Hl : length (lit "call") <= 60) by (vm_compute; lia).
  assert (Ho : first_at (lit "<" ++ lit "call" ++ lit ">") (lit "<a><call>W1AW") 3)
    by (apply first_at_by_search; reflexivity).
  assert (Hc : absent (lit "</" ++ lit "call" ++ lit ">")
                 (skipn (3 + length (lit "<" ++ lit "call" ++ lit ">"))
                        (lit "<a><call>W1AW")))
    by (apply absent_by_search; reflexivity).
  split; [exact Hn|]. split; [exact Hl|]. split; [exact Ho|]. split; [exact Hc|].
  exact (proj1 (C4_missing_close_is_absent (lit "<a><call>W1AW") (lit "call")
                  (zeros 64) 64 3 Hn Hl Ho Hc)).
Defined.

(** C4 as worded fails on a tag of 61 bytes: its closing tag does not fit
    the 64 bytes of [close_tag] and is searched without its final [>]. *)
Lemma C4_counterexample :
  nulfree tag61
  /\ first_at (lit "<" ++ tag61 ++ lit ">") dg_tag61 0
  /\ absent (lit "</" ++ tag61 ++ lit ">")
       (skipn (0 + length (lit "<" ++ tag61 ++ lit ">")) dg_tag61)
  /\ xml_get_field dg_tag61 tag61 (zeros 8) 8 = Some (1%Z, lit "x" ++ zeros 7).
Proof.
  split; [apply nulfree_by_strlen; reflexivity|].
  split; [apply first_at_by_search; reflexivity|].
  split; [apply absent_by_search; reflexivity|].
  vm_compute. reflexivity.
Qed.

Lemma C5_witness :
  1 <= 16 <= length (zeros 16)
  /\ open_at dg_longmode (lit "mode") 0
  /\ close_at dg_longmode (lit "mode") 0 17
  /\ 16 <= 17
  /\ exists buf',
       xml_get_field dg_longmode (lit "mode") (zeros 16) 16 = Some (1%Z, buf')
       /\ cstr buf'
          = trim (firstn (16 - 1) (inner_text dg_longmode (lit "mode") 0 17))
       /\ strlen buf' < 16
       /\ nth (strlen buf') buf' " "%char = NUL
       /\ length buf' = length (zeros 16)
       /\ skipn 16 buf' = skipn 16 (zeros 16).
Proof.
  assert (Hb : 1 <= 16 <= length (zeros 16)) by (rewrite zeros_length; lia).
  assert (Ho : open_at dg_longmode (lit "mode") 0)
    by (apply find_open_Some; reflexivity).
  assert (Hc : close_at dg_longmode (lit "mode") 0 17)
    by (apply find_close_Some; reflexivity).
  assert (Hlong : 16 <= 17) by lia.
  split; [exact Hb|]. split; [exact Ho|]. split; [exact Hc|]. split; [exact Hlong|].
  exact (C5_truncates_within_bounds dg_longmode (lit "mode") (zeros 16) 16 0 17
           Hb Ho Hc Hlong).
Defined.

Lemma C8_witness :
  failure Recv_error (lit "recvfrom")
  /\ exists tr1 tr2,
       main true true [Recv_ok dg_mult env0] = Some (Listening, startup ++ tr1)
       /\ main true true [Recv_ok dg_noband env0] = Some (Listening, startup ++ tr2)
       /\ main true true ([Recv_ok dg_mult env0] ++ Recv_error :: [Recv_ok dg_noband env0])
          = Some (Listening, startup ++ tr1 ++ [Perror (lit "recvfrom")] ++ tr2).
Proof.
  split; [exact recv_failed|].
  exact (C8_failures_do_not_stop_the_loop [Recv_ok dg_mult env0]
           [Recv_ok dg_noband env0] Recv_error (lit "recvfrom") recv_failed).
Defined.

Lemma band_in_named_fields : In ("band"%string, 32) named_fields.
Proof. right. left. reflexivity. Defined.

Lemma dg_noband_band_fails :
  extraction_fails (firstn (length dg_noband) dg_noband ++ [NUL]) (lit "band").
Proof. left. apply find_open_None. reflexivity. Defined.

Lemma C9_witness :
  ci_occurs contactinfo (firstn (length dg_noband) dg_noband)
  /\ malloc_ok env0 = true
  /\ In ("band"%string, 32) named_fields
  /\ extraction_fails (firstn (length dg_noband) dg_noband ++ [NUL]) (lit "band")
  /\ xml_get_field (firstn (length dg_noband) dg_noband ++ [NUL]) (lit "band")
       (zeros 32) 32 = Some (0%Z, zeros 32).
Proof.
  split; [exact dg_noband_has_marker|]. split; [reflexivity|].
  split; [exact band_in_named_fields|]. split; [exact dg_noband_band_fails|].
  exact (proj1 (C9_failed_field_stays_empty dg_noband (length dg_noband) env0
                  "band" 32 dg_noband_has_marker eq_refl
                  band_in_named_fields dg_noband_band_fails)).
Defined.

(** C9 as worded fails on xqso: its extraction fails on the scenario's
    datagram, and no conversion of the log line prints it. *)
Lemma C9_counterexample :
  ci_occurs contactinfo (firstn (length dg_mult) dg_mult)
  /\ In ("xqso"%string, 16) named_fields
  /\ extraction_fails (firstn (length dg_mult) dg_mult ++ [NUL]) (lit "xqso")
  /\ exists f,
       extract_fields (firstn (length dg_mult) dg_mult ++ [NUL]) = Some f
       /\ forall sep w, ~ In (sep, "xqso"%string, w, lit "-") (rendered f).
Proof.
  split; [exact dg_mult_has_marker|].
  split; [unfold named_fields; cbn [In]; tauto|].
  split; [left; apply find_open_None; reflexivity|].
  destruct (extract_fields_total (firstn (length dg_mult) dg_mult ++ [NUL]))
    as [f [Hf _]].
  exists f. split; [exact Hf|]. intros sep w. apply xqso_not_rendered.
Qed.

Lemma junk_has_no_tag (tag : string) (size : nat) :
  In (tag, size) named_fields -> ~ ci_occurs (open_tag (lit tag)) (lit "junk").
Proof.
  intros Hin. unfold named_fields in Hin.
  repeat (destruct Hin as [Hin|Hin];
          [injection Hin as <- <-; apply not_occurs_short; vm_compute; lia|]).
  destruct Hin.
Defined.

Lemma C10_witness :
  nulfree (lit "junk")
  /\ ci_occurs contactinfo dg_mult
  /\ malloc_ok env0 = true
  /\ found_ci (lit "junk" ++ NUL :: dg_mult)
       (length (lit "junk" ++ NUL :: dg_mult)) = true.
Proof.
  assert (Hn : nulfree (lit "junk")) by (apply nulfree_by_strlen; reflexivity).
  assert (Hc : ci_occurs contactinfo dg_mult) by (exists 0; reflexivity).
  split; [exact Hn|]. split; [exact Hc|]. split; [reflexivity|].
  exact (proj1 (C10_tags_after_embedded_nul (lit "junk") dg_mult env0
                  Hn Hc junk_has_no_tag eq_refl)).
Defined.

(* ================================================================== *)
(** ** Further properties of the field extractor                       *)
(* ================================================================== *)

Lemma strncasecmp_ci (s t t' : bytes) (n : nat) :
  ci_eq t t' -> strncasecmp s t n = strncasecmp s t' n.
Proof.
  unfold ci_eq. revert s t t'; induction n as [|n IH]; intros s t t' E;
    [reflexivity|].
  destruct t as [|y t], t' as [|y' t']; try discriminate E.
  - reflexivity.
  - cbn [map] in E. injection E as Ey Et.
    cbn [strncasecmp peek hd tl]. rewrite Ey.
    now rewrite (IH (tl s) t t' Et).
Qed.

Lemma find_tag_ci (p t t' : bytes) (n : nat) :
  ci_eq t t' -> find_tag p t n = find_tag p t' n.
Proof.
  intros E. induction p as [|c p IH]; [reflexivity|].
  cbn [find_tag]. now rewrite (strncasecmp_ci (c :: p) t t' n E), IH.
Qed.

Lemma snprintf_s_ci (size : nat) (pre arg arg' post : bytes) :
  ci_eq (cstr arg) (cstr arg') ->
  ci_eq (snprintf_s size pre arg post) (snprintf_s size pre arg' post).
Proof.
  unfold ci_eq, snprintf_s. intros E.
  now rewrite <- !firstn_map, !map_app, E.
Qed.

(** What a call that returns 1 has done. *)
Lemma xml_get_field_success (xml tag buf buf' : bytes) (buflen : nat) :
  1 <= buflen <= length buf ->
  xml_get_field xml tag buf buflen = Some (1%Z, buf') ->
  exists i len0,
    open_at xml tag i /\ close_at xml tag i len0
    /\ cstr buf' = trim (firstn (buflen - 1) (inner_text xml tag i len0))
    /\ length buf' = length buf.
Proof.
  intros Hb E.
  destruct (extractor_cases xml tag) as [H | [[i [Ho Hc]] | [i [l [Ho Hc]]]]].
  - rewrite xml_get_field_no_open in E by assumption. discriminate E.
  - rewrite (xml_get_field_no_close _ _ _ _ i) in E by assumption. discriminate E.
  - exists i, l. split; [exact Ho|]. split; [exact Hc|].
    destruct (xml_get_field_found xml tag buf buflen i l Ho Hc Hb) as [mid [E' Hm]].
    rewrite E' in E. injection E as <-.
    pose proof (inner_text_length _ _ _ _ Hc) as Hil.
    assert (Hcl : copy_len buflen l < buflen).
    { unfold copy_len. destruct (Nat.leb_spec buflen l); lia. }
    assert (Hv : firstn (copy_len buflen l) (inner_text xml tag i l)
                 = firstn (buflen - 1) (inner_text xml tag i l)).
    { rewrite <- Hil at 1. apply firstn_copy_len. lia. }
    rewrite Hv in *.
    edestruct (found_shape (trim (firstn (buflen - 1) (inner_text xml tag i l)))
                 mid buf (copy_len buflen l) buflen) as (H1 & _ & _ & H4 & _).
    + apply nulfree_trim, nulfree_firstn. eapply inner_text_nulfree; eassumption.
    + exact Hm.
    + lia.
    + split; [exact H1 | exact H4].
Qed.

Lemma drop_ws_hd (v : bytes) : is_ws (hd NUL (drop_ws v)) = false.
Proof.
  induction v as [|c v IH]; [reflexivity|]. cbn [drop_ws].
  destruct (is_ws c) eqn:E; [exact IH | exact E].
Qed.

Lemma last_rev_hd (l : bytes) (d : ascii) : last (rev l) d = hd d l.
Proof.
  destruct l as [|a l]; [reflexivity|]. cbn [rev hd]. apply last_last.
Qed.

Lemma rtrim_prefix (w : bytes) : exists t, w = rtrim w ++ t.
Proof.
  induction w as [|c w [t Ht]] using rev_ind.
  - now exists [].
  - rewrite rtrim_snoc. destruct (is_ws c).
    + exists (t ++ [c]). rewrite app_assoc. now rewrite <- Ht.
    + exists []. now rewrite app_nil_r.
Qed.

Lemma trim_ends (v : bytes) :
  is_ws (hd NUL (trim v)) = false /\ is_ws (last (trim v) NUL) = false.
Proof.
  rewrite trim_unfold. split.
  - destruct (rtrim_prefix (drop_ws v)) as [t Ht].
    destruct (rtrim (drop_ws v)) as [|a r] eqn:E; [reflexivity|].
    pose proof (drop_ws_hd v) as H. rewrite Ht in H. exact H.
  - unfold rtrim. rewrite last_rev_hd. apply drop_ws_hd.
Qed.

Lemma trim_length (v : bytes) : length (trim v) <= length v.
Proof.
  rewrite trim_unfold. pose proof (rtrim_length (drop_ws v)).
  pose proof (drop_ws_length v). lia.
Qed.

Lemma drop_ws_all (v : bytes) : forallb is_ws v = true -> drop_ws v = [].
Proof.
  induction v as [|c v IH]; [reflexivity|]. cbn [forallb drop_ws].
  destruct (is_ws c); [exact IH | discriminate].
Qed.

(** X1.  The case of the letters of the tag argument does not matter: two
    tags that are equal up to case give the same return value and the
    same destination on every document. *)
Theorem X1_tag_case_irrelevant (xml tag tag' buf : bytes) (buflen : nat) :
  ci_eq (cstr tag) (cstr tag') ->
  xml_get_field xml tag buf buflen = xml_get_field xml tag' buf buflen.
Proof.
  intros E.
  pose proof (snprintf_s_ci 64 (lit "<") tag tag' (lit ">") E) as Eo.
  pose proof (snprintf_s_ci 64 (lit "</") tag tag' (lit ">") E) as Ec.
  fold (open_tag tag) (open_tag tag') in Eo.
  fold (close_tag tag) (close_tag tag') in Ec.
  unfold xml_get_field.
  rewrite !strlen_open_tag, !strlen_close_tag.
  rewrite <- (ci_eq_length _ _ Eo), <- (ci_eq_length _ _ Ec).
  rewrite (find_tag_ci xml _ _ _ Eo).
  destruct (find_tag xml (open_tag tag') (length (open_tag tag))) as [i|];
    [|reflexivity].
  now rewrite (find_tag_ci _ _ _ _ Ec).
Qed.

Lemma X1_witness :
  ci_eq (cstr (lit "call")) (cstr (lit "CaLL"))
  /\ xml_get_field dg_mult (lit "call") (zeros 64) 64
     = xml_get_field dg_mult (lit "CaLL") (zeros 64) 64.
Proof.
  assert (E : ci_eq (cstr (lit "call")) (cstr (lit "CaLL"))) by reflexivity.
  split; [exact E|].
  exact (X1_tag_case_irrelevant dg_mult (lit "call") (lit "CaLL") (zeros 64) 64 E).
Defined.

(** X2.  Whenever a call with [1 <= buflen <= sizeof buf] returns 1, the
    string it leaves neither begins nor ends with a white-space byte, has
    at most [buflen - 1] bytes, and the destination keeps its size. *)
Theorem X2_stored_value_is_trimmed (xml tag buf buf' : bytes) (buflen : nat) :
  1 <= buflen <= length buf ->
  xml_get_field xml tag buf buflen = Some (1%Z, buf') ->
  is_ws (hd NUL (cstr buf')) = false
  /\ is_ws (last (cstr buf') NUL) = false
  /\ length (cstr buf') <= buflen - 1
  /\ length buf' = length buf.
Proof.
  intros Hb E.
  destruct (xml_get_field_success xml tag buf buf' buflen Hb E)
    as (i & l & _ & _ & -> & Hl).
  destruct (trim_ends (firstn (buflen - 1) (inner_text xml tag i l))) as [H1 H2].
  split; [exact H1|]. split; [exact H2|]. split; [|exact Hl].
  pose proof (trim_length (firstn (buflen - 1) (inner_text xml tag i l))) as H.
  rewrite length_firstn in H. lia.
Qed.

Lemma X2_witness :
  1 <= 16 <= length (zeros 16)
  /\ xml_get_field dg_longmode (lit "mode") (zeros 16) 16
     = Some (1%Z, lit "RTTY-CONTEST-MO" ++ [NUL])
  /\ length (cstr (lit "RTTY-CONTEST-MO" ++ [NUL])) <= 16 - 1.
Proof.
  assert (Hb : 1 <= 16 <= length (zeros 16)) by (rewrite zeros_length; lia).
  assert (E : xml_get_field dg_longmode (lit "mode") (zeros 16) 16
              = Some (1%Z, lit "RTTY-CONTEST-MO" ++ [NUL]))
    by (vm_compute; reflexivity).
  split; [exact Hb|]. split; [exact E|].
  exact (proj1 (proj2 (proj2 (X2_stored_value_is_trimmed dg_longmode (lit "mode")
                                (zeros 16) (lit "RTTY-CONTEST-MO" ++ [NUL]) 16 Hb E)))).
Defined.

(** X3.  When the first [buflen - 1] bytes of the inner text (all of it,
    when it is shorter) are white space, the call returns 1 and leaves the
    empty string, whatever follows the white space: the value is cut
    before it is trimmed. *)
Theorem X3_white_space_prefix_gives_empty
  (xml tag buf : bytes) (buflen i len0 : nat) :
  1 <= buflen <= length buf ->
  open_at xml tag i -> close_at xml tag i len0 ->
  forallb is_ws (firstn (buflen - 1) (inner_text xml tag i len0)) = true ->
  exists buf',
    xml_get_field xml tag buf buflen = Some (1%Z, buf')
    /\ cstr buf' = [].
Proof.
  intros Hb Ho Hc Hws.
  destruct (xml_get_field_found xml tag buf buflen i len0 Ho Hc Hb) as [mid [E Hm]].
  eexists. split; [exact E|].
  pose proof (inner_text_length _ _ _ _ Hc) as Hil.
  assert (Hv : firstn (copy_len buflen len0) (inner_text xml tag i len0)
               = firstn (buflen - 1) (inner_text xml tag i len0)).
  { rewrite <- Hil at 1. apply firstn_copy_len. lia. }
  rewrite Hv. unfold trim. rewrite (drop_ws_all _ Hws). reflexivity.
Qed.

Lemma X3_witness :
  1 <= 16 <= length (zeros 16)
  /\ open_at dg_padded_newqso (lit "newqso") 0
  /\ close_at dg_padded_newqso (lit "newqso") 0 20
  /\ forallb is_ws
       (firstn (16 - 1) (inner_text dg_padded_newqso (lit "newqso") 0 20)) = true
  /\ exists buf',
       xml_get_field dg_padded_newqso (lit "newqso") (zeros 16) 16
         = Some (1%Z, buf')
       /\ cstr buf' = [].
Proof.
  assert (Hb : 1 <= 16 <= length (zeros 16)) by (rewrite zeros_length; lia).
  assert (Ho : open_at dg_padded_newqso (lit "newqso") 0)
    by (apply find_open_Some; reflexivity).
  assert (Hc : close_at dg_padded_newqso (lit "newqso") 0 20)
    by (apply find_close_Some; reflexivity).
  assert (Hws : forallb is_ws
            (firstn (16 - 1) (inner_text dg_padded_newqso (lit "newqso") 0 20))
          = true) by reflexivity.
  split; [exact Hb|]. split; [exact Ho|]. split; [exact Hc|]. split; [exact Hws|].
  exact (X3_white_space_prefix_gives_empty dg_padded_newqso (lit "newqso")
           (zeros 16) 16 0 20 Hb Ho Hc Hws).
Defined.

(* ================================================================== *)
(** ** Further properties of the datagram processor                    *)
(* ================================================================== *)

Lemma field_value (xml : bytes) (f : fields) (tag : string) (size : nat)
  (r : Z) (b : bytes) :
  extract_fields xml = Some f ->
  In (tag, size) named_fields ->
  xml_get_field xml (lit tag) (zeros size) size = Some (r, b) ->
  field_of f tag = b.
Proof.
  intros Hf Hin E.
  destruct (extract_fields_total xml) as [f' [Hf' Hall]].
  rewrite Hf in Hf'. injection Hf' as <-.
  specialize (Hall tag size Hin). unfold extract in Hall.
  rewrite E in Hall. cbn [bind snd] in Hall. now injection Hall.
Qed.

Lemma named_field_size (tag : string) (size : nat) :
  In (tag, size) named_fields -> 1 <= size.
Proof.
  unfold named_fields. cbn [In]. intros H.
  repeat (destruct H as [H|H]; [injection H as _ <-; lia|]). destruct H.
Qed.

Lemma strlen_zeros (n : nat) : strlen (zeros n) = 0.
Proof. destruct n; reflexivity. Qed.

(** X4.  Whatever the datagram, none of the eight extractions writes
    outside its field buffer: [process_datagram] runs to its end, and
    afterwards every field buffer has its declared size and holds a string
    that ends before the end of the buffer. *)
Theorem X4_field_buffers_stay_terminated (buf : bytes) (len : nat) (e : env) :
  (exists tr, process_datagram buf len e = Some tr)
  /\ exists f,
       extract_fields (firstn len buf ++ [NUL]) = Some f
       /\ forall tag size, In (tag, size) named_fields ->
            length (field_of f tag) = size
            /\ strlen (field_of f tag) < size.
Proof.
  split; [apply process_datagram_total|].
  set (xml := firstn len buf ++ [NUL]).
  destruct (extract_fields_total xml) as [f [Hf _]].
  exists f. split; [exact Hf|].
  intros tag size Hin.
  pose proof (named_field_size tag size Hin) as Hs.
  destruct (xml_get_field_total xml (lit tag) (zeros size) size)
    as (r & b & E & Hl & _ & H).
  { rewrite zeros_length. lia. }
  rewrite (field_value xml f tag size r b Hf Hin E).
  rewrite zeros_length in Hl. split; [exact Hl|].
  destruct H as [[_ ->] | [_ H]]; [rewrite strlen_zeros; lia | exact H].
Qed.

(** The value a well-formed pair leaves in a destination. *)
Lemma pair_extracted (tag pre o inner c post buf : bytes) (buflen : nat) :
  nulfree tag -> length tag <= 60 ->
  well_formed_pair tag pre o inner c post ->
  1 <= buflen <= length buf ->
  exists buf',
    xml_get_field (pre ++ o ++ inner ++ c ++ post) tag buf buflen
      = Some (1%Z, buf')
    /\ cstr buf' = trim (firstn (buflen - 1) inner).
Proof.
  intros Ht Hl Hw Hb.
  destruct (pair_located tag pre o inner c post Ht Hl Hw) as (Ho & Hc & Hi).
  destruct (xml_get_field_found _ tag buf buflen _ _ Ho Hc Hb) as [mid [E Hm]].
  rewrite Hi, firstn_copy_len in E, Hm by lia.
  eexists. split; [exact E|].
  apply cstr_app_NUL, nulfree_trim, nulfree_firstn. rewrite <- Hi.
  eapply inner_text_nulfree; eassumption.
Qed.

(** X5.  End to end: a datagram with the marker in which newqso is a
    well-formed pair whose value (its first 15 bytes, trimmed) is "true"
    up to case, and one of mult1, mult2, mult3 is a well-formed pair whose
    value (its first 63 bytes, trimmed) is not empty, gets the MULT marker
    and a call of [play_sound], once its copy is allocated. *)
Theorem X5_new_multiplier_plays_sound
  (buf : bytes) (len : nat) (e : env) (mult : string)
  (pre1 o1 inner1 c1 post1 pre2 o2 inner2 c2 post2 : bytes) :
  ci_occurs contactinfo (firstn len buf) ->
  malloc_ok e = true ->
  firstn len buf ++ [NUL] = pre1 ++ o1 ++ inner1 ++ c1 ++ post1 ->
  well_formed_pair (lit "newqso") pre1 o1 inner1 c1 post1 ->
  ci_eq (trim (firstn 15 inner1)) (lit "true") ->
  In mult ["mult1"; "mult2"; "mult3"]%string ->
  firstn len buf ++ [NUL] = pre2 ++ o2 ++ inner2 ++ c2 ++ post2 ->
  well_formed_pair (lit mult) pre2 o2 inner2 c2 post2 ->
  trim (firstn 63 inner2) <> [] ->
  exists tr,
    process_datagram buf len e = Some tr
    /\ In (Stdout mult_marker) tr
    /\ In Call_play_sound tr.
Proof.
  intros Hci Hm X1 W1 V1 Hin X2 W2 V2.
  destruct (datagram_events buf len e Hci Hm) as (f & tr & Hf & Htr & Hp & Hk & _ & _).
  exists tr. split; [exact Htr|].
  assert (T : trigger f).
  { split.
    - assert (Hsz : In (mult, 64) named_fields /\ length (lit mult) <= 60
                    /\ nulfree (lit mult)).
      { cbn [In] in Hin.
        destruct Hin as [<-|[<-|[<-|[]]]];
          (split; [unfold named_fields; cbn [In]; tauto|]);
          (split; [vm_compute; lia | apply nulfree_by_strlen; reflexivity]). }
      destruct Hsz as (Hnf & Hl & Hn).
      destruct (pair_extracted (lit mult) pre2 o2 inner2 c2 post2 (zeros 64) 64
                  Hn Hl W2) as [b [E Hb]].
      { rewrite zeros_length. lia. }
      rewrite <- X2 in E.
      pose proof (field_value _ f mult 64 _ b Hf Hnf E) as Hv.
      change (64 - 1) with 63 in Hb.
      cbn [In] in Hin.
      destruct Hin as [<-|[<-|[<-|[]]]];
        cbv [field_of String.eqb Ascii.eqb Bool.eqb andb] in Hv;
        rewrite <- Hv in Hb.
      + left. now rewrite Hb.
      + right. left. now rewrite Hb.
      + right. right. now rewrite Hb.
    - destruct (pair_extracted (lit "newqso") pre1 o1 inner1 c1 post1 (zeros 16) 16)
        as [b [E Hb]].
      + apply nulfree_by_strlen. reflexivity.
      + vm_compute. lia.
      + exact W1.
      + rewrite zeros_length. lia.
      + rewrite <- X1 in E.
        assert (Hnf : In ("newqso"%string, 16) named_fields)
          by (unfold named_fields; cbn [In]; tauto).
        pose proof (field_value _ f "newqso" 16 _ b Hf Hnf E) as Hv.
        cbv [field_of String.eqb Ascii.eqb Bool.eqb andb] in Hv.
        rewrite Hv, Hb. exact V1. }
  split; [now apply Hk | now apply Hp].
Qed.

(** X6.  A datagram whose newqso extraction fails, or whose mult1, mult2
    and mult3 extractions all fail, never gets the MULT marker nor a call
    of [play_sound]; its log line is still printed and ended. *)
Theorem X6_missing_fields_never_play
  (buf : bytes) (len : nat) (e : env) :
  ci_occurs contactinfo (firstn len buf) ->
  malloc_ok e = true ->
  extraction_fails (firstn len buf ++ [NUL]) (lit "newqso")
  \/ (extraction_fails (firstn len buf ++ [NUL]) (lit "mult1")
      /\ extraction_fails (firstn len buf ++ [NUL]) (lit "mult2")
      /\ extraction_fails (firstn len buf ++ [NUL]) (lit "mult3")) ->
  exists f tr,
    process_datagram buf len e = Some tr
    /\ ~ In (Stdout mult_marker) tr
    /\ ~ In Call_play_sound tr
    /\ exists pre, tr = pre ++ [Stdout (pkt_line e f); Stdout [nl]; Fflush].
Proof.
  intros Hci Hm Hfail.
  destruct (datagram_events buf len e Hci Hm) as (f & tr & Hf & Htr & Hp & Hk & _ & Hl).
  assert (T : ~ trigger f).
  { intros [Hmult Hnew]. destruct Hfail as [Hq | (H1 & H2 & H3)].
    - assert (Hin : In ("newqso"%string, 16) named_fields)
        by (unfold named_fields; cbn [In]; tauto).
      pose proof (field_kept_empty _ f _ _ Hf Hin Hq) as Hz.
      cbv [field_of String.eqb Ascii.eqb Bool.eqb andb] in Hz.
      rewrite Hz, cstr_zeros in Hnew. discriminate Hnew.
    - assert (I1 : In ("mult1"%string, 64) named_fields)
        by (unfold named_fields; cbn [In]; tauto).
      assert (I2 : In ("mult2"%string, 64) named_fields)
        by (unfold named_fields; cbn [In]; tauto).
      assert (I3 : In ("mult3"%string, 64) named_fields)
        by (unfold named_fields; cbn [In]; tauto).
      pose proof (field_kept_empty _ f _ _ Hf I1 H1) as Z1.
      pose proof (field_kept_empty _ f _ _ Hf I2 H2) as Z2.
      pose proof (field_kept_empty _ f _ _ Hf I3 H3) as Z3.
      cbv [field_of String.eqb Ascii.eqb Bool.eqb andb] in Z1, Z2, Z3.
      rewrite Z1, Z2, Z3, cstr_zeros in Hmult.
      destruct Hmult as [H|[H|H]]; now apply H. }
  exists f, tr. split; [exact Htr|].
  split; [intros H; apply T; now apply Hk|].
  split; [intros H; apply T; now apply Hp|].
  exact (Hl T).
Qed.

Lemma dg_mult_newqso_pair :
  well_formed_pair (lit "newqso") dg_mult_before_newqso (lit "<newqso>")
    (lit "true") (lit "</newqso>") dg_mult_after_newqso.
Proof.
  split; [apply nulfree_by_strlen; reflexivity|].
  split; [reflexivity|]. split; [reflexivity|]. split.
  - apply (no_earlier_by_search _ _ (length dg_mult_before_newqso)); reflexivity.
  - apply (no_earlier_by_search _ _ 4); reflexivity.
Defined.

Lemma dg_mult_mult1_pair :
  well_formed_pair (lit "mult1") dg_mult_before_mult1 (lit "<mult1>")
    (lit "NY") (lit "</mult1>") dg_mult_after_mult1.
Proof.
  split; [apply nulfree_by_strlen; reflexivity|].
  split; [reflexivity|]. split; [reflexivity|]. split.
  - apply (no_earlier_by_search _ _ (length dg_mult_before_mult1)); reflexivity.
  - apply (no_earlier_by_search _ _ 2); reflexivity.
Defined.

Lemma mult1_is_a_mult : In "mult1"%string ["mult1"; "mult2"; "mult3"]%string.
Proof. left. reflexivity. Defined.

Lemma NY_not_empty : trim (firstn 63 (lit "NY")) <> [].
Proof. vm_compute. discriminate. Defined.

Lemma X5_witness :
  ci_occurs contactinfo (firstn (length dg_mult) dg_mult)
  /\ malloc_ok env0 = true
  /\ well_formed_pair (lit "newqso") dg_mult_before_newqso (lit "<newqso>")
       (lit "true") (lit "</newqso>") dg_mult_after_newqso
  /\ well_formed_pair (lit "mult1") dg_mult_before_mult1 (lit "<mult1>")
       (lit "NY") (lit "</mult1>") dg_mult_after_mult1
  /\ exists tr,
       process_datagram dg_mult (length dg_mult) env0 = Some tr
       /\ In (Stdout mult_marker) tr
       /\ In Call_play_sound tr.
Proof.
  split; [exact dg_mult_has_marker|]. split; [reflexivity|].
  split; [exact dg_mult_newqso_pair|]. split; [exact dg_mult_mult1_pair|].
  exact (X5_new_multiplier_plays_sound dg_mult (length dg_mult) env0 "mult1"
           dg_mult_before_newqso (lit "<newqso>") (lit "true") (lit "</newqso>")
           dg_mult_after_newqso
           dg_mult_before_mult1 (lit "<mult1>") (lit "NY") (lit "</mult1>")
           dg_mult_after_mult1
           dg_mult_has_marker eq_refl eq_refl dg_mult_newqso_pair eq_refl
           mult1_is_a_mult eq_refl dg_mult_mult1_pair NY_not_empty).
Defined.

Lemma dg_noband_has_no_mult :
  extraction_fails (firstn (length dg_noband) dg_noband ++ [NUL]) (lit "newqso")
  \/ (extraction_fails (firstn (length dg_noband) dg_noband ++ [NUL]) (lit "mult1")
      /\ extraction_fails (firstn (length dg_noband) dg_noband ++ [NUL]) (lit "mult2")
      /\ extraction_fails (firstn (length dg_noband) dg_noband ++ [NUL]) (lit "mult3")).
Proof.
  right. repeat split; left; apply find_open_None; reflexivity.
Defined.

Lemma X6_witness :
  ci_occurs contactinfo (firstn (length dg_noband) dg_noband)
  /\ malloc_ok env0 = true
  /\ exists f tr,
       process_datagram dg_noband (length dg_noband) env0 = Some tr
       /\ ~ In (Stdout mult_marker) tr
       /\ ~ In Call_play_sound tr
       /\ exists pre, tr = pre ++ [Stdout (pkt_line env0 f); Stdout [nl]; Fflush].
Proof.
  split; [exact dg_noband_has_marker|]. split; [reflexivity|].
  exact (X6_missing_fields_never_play dg_noband (length dg_noband) env0
           dg_noband_has_marker eq_refl dg_noband_has_no_mult).
Defined.

(* ================================================================== *)
(** ** Further properties of the listener loop                         *)
(* ================================================================== *)

Lemma process_received (data buf : bytes) (e : env) :
  let n := Nat.min (length data) 65535 in
  process_datagram (firstn n data ++ skipn n buf) n e = process_datagram data n e.
Proof.
  intros n.
  assert (Hn : n <= length data) by apply Nat.le_min_l.
  rewrite <- (process_datagram_prefix (firstn n data ++ skipn n buf)).
  rewrite received_prefix by assumption.
  apply process_datagram_prefix.
Qed.

Lemma listen_decomposed (inputs : list recv) (buf : bytes) :
  exists traces,
    Forall2 (fun x tr => datagram_trace x = Some tr) inputs traces
    /\ listen buf inputs = Some (concat traces).
Proof.
  revert buf; induction inputs as [|[|data e] rest IH]; intros buf; cbn [listen].
  - exists []. split; [constructor | reflexivity].
  - destruct (IH buf) as [traces [HF ->]].
    exists ([Perror (lit "recvfrom")] :: traces).
    split; [constructor; [reflexivity | exact HF] | reflexivity].
  - rewrite process_received.
    destruct (process_datagram_total data (Nat.min (length data) 65535) e)
      as [t1 H1].
    destruct (IH (firstn (Nat.min (length data) 65535) data
                  ++ skipn (Nat.min (length data) 65535) buf))
      as [traces [HF ->]].
    rewrite H1. exists (t1 :: traces).
    split; [constructor; [exact H1 | exact HF] | reflexivity].
Qed.

(** X7.  The loop carries nothing from one datagram to the next: whatever
    the receive buffer held, the events of a sequence of [recvfrom]
    answers are, in order, those each answer produces when it is handled
    alone on its received bytes (cut to 65535). *)
Theorem X7_datagrams_are_independent (inputs : list recv) (buf : bytes) :
  exists traces,
    Forall2 (fun x tr => datagram_trace x = Some tr) inputs traces
    /\ listen buf inputs = Some (concat traces).
Proof. exact (listen_decomposed inputs buf). Qed.




(** X9.  [main] always reaches a status; it exits, with code 1 and after
    the banner and one [perror] naming the failed call, exactly when
    [socket] or [bind] fails, and then handles no datagram; otherwise it
    is still listening after any number of [recvfrom] answers. *)
Theorem X9_main_exits_only_on_setup_failure
  (socket_ok bind_ok : bool) (inputs : list recv) :
  exists st tr,
    main socket_ok bind_ok inputs = Some (st, tr)
    /\ (st = Listening <-> socket_ok && bind_ok = true)
    /\ (socket_ok && bind_ok = false ->
        st = Exited 1
        /\ tr = banner
                ++ [Perror (if socket_ok then lit "bind" else lit "socket")]).
Proof.
  unfold main. destruct socket_ok; cbn [negb andb].
  - destruct bind_ok; cbn [negb].
    + destruct (listen_total inputs (zeros 65536)) as [tr ->]. cbn [bind].
      do 2 eexists. split; [reflexivity|].
      split; [split; reflexivity | discriminate].
    + do 2 eexists. split; [reflexivity|].
      split; [split; discriminate | intros _; split; reflexivity].
  - do 2 eexists. split; [reflexivity|].
    split; [split; discriminate | intros _; split; reflexivity].
Qed.

(* ================================================================== *)
(** ** Further properties of the tone loops                            *)
(* ================================================================== *)

Module ToneSafety.

Import Tone.

Lemma short_wrap_range (z : Z) : (-32768 <= short_wrap z <= 32767)%Z.
Proof.
  unfold short_wrap.
  pose proof (Z.mod_pos_bound (z + 2 ^ 15) (2 ^ 16) ltac:(lia)). lia.
Qed.

Lemma tone_length (sin : double -> double) (rate freq : Z) (vol : double)
  (num : Z) :
  length (tone sin rate freq vol num) = Z.to_nat num.
Proof. unfold tone. now rewrite length_map, length_seq. Qed.

Lemma tone_range (sin : double -> double) (rate freq : Z) (vol : double)
  (num : Z) :
  Forall (fun v => (-32768 <= v <= 32767)%Z) (tone sin rate freq vol num).
Proof.
  apply Forall_forall. intros v Hv. unfold tone in Hv.
  apply in_map_iff in Hv as [k [<- _]]. apply short_wrap_range.
Qed.

(** X10.  Started on a block of [num_samples] elements, each tone loop
    stores inside the block only (the block keeps its length) and leaves
    in every element a value of the 16-bit signed range. *)
Theorem X10_tone_stays_in_block
  (sin : double -> double) (rate freq dur : Z) (vol : double) (block : list Z) :
  length block = Z.to_nat (beep_num_samples rate dur) ->
  length (beep_samples sin rate freq dur vol block) = length block
  /\ length (alsa_samples sin rate freq dur vol block) = length block
  /\ Forall (fun v => (-32768 <= v <= 32767)%Z)
       (beep_samples sin rate freq dur vol block)
  /\ Forall (fun v => (-32768 <= v <= 32767)%Z)
       (alsa_samples sin rate freq dur vol block).
Proof.
  intros H.
  assert (H' : length block = Z.to_nat (alsa_num_samples rate dur)).
  { now rewrite <- ToneFacts.num_samples_agree. }
  rewrite (ToneFacts.beep_samples_tone sin rate freq dur vol block H).
  rewrite (ToneFacts.alsa_samples_tone sin rate freq dur vol block H').
  rewrite !tone_length, <- H, <- H'.
  repeat split; apply tone_range.
Qed.

Lemma X10_witness :
  let sinf := fun x : double => x in
  let block := repeat 7%Z 20 in
  length block = Z.to_nat (beep_num_samples 1000 20)
  /\ length (beep_samples sinf 1000 100 20 volume_0_6 block) = length block
  /\ length (alsa_samples sinf 1000 100 20 volume_0_6 block) = length block.
Proof.
  split; [reflexivity|].
  pose proof (X10_tone_stays_in_block (fun x : double => x) 1000 100 20
                volume_0_6 (repeat 7%Z 20) eq_refl) as H.
  split; [exact (proj1 H) | exact (proj1 (proj2 H))].
Defined.

End ToneSafety.

(* ================================================================== *)
(** ** The value of a sample                                           *)
(* ================================================================== *)

Module ToneRounding.

Import Tone.
Import PrimFloat.

Lemma quot_50_range (rate : Z) :
  (0 <= rate < 2 ^ 31)%Z -> (0 <= Z.quot rate 50 < 2 ^ 31)%Z.
Proof.
  intros H.
  pose proof (Z.quot_pos rate 50 ltac:(lia) ltac:(lia)).
  pose proof (Z.quot_le_upper_bound rate 50 rate ltac:(lia) ltac:(lia)). lia.
Qed.

(** The three parts of the fade, when no [int] operation wraps. *)
Lemma fade_parts (rate num i : Z) :
  (0 <= rate < 2 ^ 31)%Z -> (- 2 ^ 31 <= num < 2 ^ 31)%Z -> (0 <= i < num)%Z ->
  let fadelen := Z.quot rate 50 in
  ((i < fadelen)%Z ->
     fade rate num i = div (double_of_int i) (double_of_int fadelen))
  /\ ((fadelen <= i <= num - fadelen)%Z -> fade rate num i = 1%float)
  /\ ((fadelen <= i)%Z -> (num - fadelen < i)%Z ->
      fade rate num i = div (double_of_int (num - i)) (double_of_int fadelen)).
Proof.
  intros Hr Hn Hi fadelen.
  pose proof (quot_50_range rate Hr) as Hf. fold fadelen in Hf.
  unfold fade. fold fadelen.
  rewrite (ToneFacts.int_wrap_id (num - fadelen)) by lia.
  rewrite (ToneFacts.int_wrap_id (num - i)) by lia.
  repeat split.
  - intros H. destruct (Z.ltb_spec i fadelen); [reflexivity | lia].
  - intros H. destruct (Z.ltb_spec i fadelen); [lia|].
    destruct (Z.ltb_spec (num - fadelen) i); [lia | reflexivity].
  - intros H1 H2. destruct (Z.ltb_spec i fadelen); [lia|].
    destruct (Z.ltb_spec (num - fadelen) i); [reflexivity | lia].
Qed.

(** C7, with the conversion the code applies.  For every sample index
    [i] of the generated tone, the stored sample is the conversion to
    [short] of the [double] [volume * fade(i) * sin(2 pi freq i / rate) *
    32767.0]: its integer part, the fraction dropped towards zero, when
    that fits 16 bits.  [fade(i)] is [i / (rate/50)] over the first
    [rate/50] samples, then 1, then [(num_samples - i) / (rate/50)] from
    the index after [num_samples - rate/50] on. *)
Theorem C7_sample_is_truncated
  (sin : double -> double) (rate freq dur : Z) (vol : double)
  (block : list Z) (i : Z) :
  (0 <= rate < 2 ^ 31)%Z ->
  length block = Z.to_nat (beep_num_samples rate dur) ->
  (0 <= i < beep_num_samples rate dur)%Z ->
  let num := beep_num_samples rate dur in
  let fadelen := Z.quot rate 50 in
  let v := tone_value sin rate freq vol num i in
  nth (Z.to_nat i) (beep_samples sin rate freq dur vol block) 0%Z
    = short_of_double v
  /\ ((-32768 <= trunc v <= 32767)%Z -> short_of_double v = trunc v)
  /\ ((i < fadelen)%Z ->
      fade rate num i = div (double_of_int i) (double_of_int fadelen))
  /\ ((fadelen <= i <= num - fadelen)%Z -> fade rate num i = 1%float)
  /\ ((fadelen <= i)%Z -> (num - fadelen < i)%Z ->
      fade rate num i = div (double_of_int (num - i)) (double_of_int fadelen)).
Proof.
  intros Hr Hl Hi num fadelen v.
  split; [|split].
  - rewrite (ToneFacts.beep_samples_tone sin rate freq dur vol block Hl).
    now rewrite ToneFacts.tone_nth by exact Hi.
  - intros H. unfold short_of_double, short_wrap.
    rewrite Z.mod_small by lia. lia.
  - apply (fade_parts rate num i Hr); [|exact Hi].
    apply ToneFacts.int_wrap_range.
Qed.

Lemma C7_witness :
  (0 <= 1000 < 2 ^ 31)%Z
  /\ length (repeat 7%Z 20) = Z.to_nat (beep_num_samples 1000 20)
  /\ (0 <= 3 < beep_num_samples 1000 20)%Z
  /\ nth (Z.to_nat 3)
       (beep_samples sin_series 1000 100 20 volume_0_6 (repeat 7%Z 20)) 0%Z
     = short_of_double
         (tone_value sin_series 1000 100 volume_0_6 (beep_num_samples 1000 20) 3).
Proof.
  assert (Hr : (0 <= 1000 < 2 ^ 31)%Z) by lia.
  assert (Hi : (0 <= 3 < beep_num_samples 1000 20)%Z)
    by (change (beep_num_samples 1000 20) with 20%Z; lia).
  split; [exact Hr|]. split; [reflexivity|]. split; [exact Hi|].
  exact (proj1 (C7_sample_is_truncated sin_series 1000 100 20 volume_0_6
                  (repeat 7%Z 20) 3 Hr eq_refl Hi)).
Defined.

(** C7 as worded fails with the configured tone (44100 Hz, 880 Hz, 400 ms,
    volume 0.6): the product is 2.787 at sample 1, 4769.821 at sample 904
    and -5526.700 at sample 1000; the loop stores 2, 4769 and -5526, where
    rounding gives 3, 4770 and -5527. *)
Lemma C7_counterexample :
  let block := repeat 0%Z 17640 in
  let stored :=
    beep_samples sin_series 44100 880 400 volume_0_6 block in
  let product := tone_value sin_series 44100 880 volume_0_6 17640 in
  let rounded := rounded_sample sin_series 44100 880 volume_0_6 17640 in
  length block = Z.to_nat (beep_num_samples 44100 400)
  /\ (nth (Z.to_nat 1) stored 0%Z = 2%Z /\ rounded 1%Z = 3%Z
      /\ trunc (mul (product 1%Z) (double_of_int 1000)) = 2787%Z)
  /\ (nth (Z.to_nat 904) stored 0%Z = 4769%Z /\ rounded 904%Z = 4770%Z
      /\ trunc (mul (product 904%Z) (double_of_int 1000)) = 4769821%Z)
  /\ (nth (Z.to_nat 1000) stored 0%Z = (-5526)%Z /\ rounded 1000%Z = (-5527)%Z
      /\ trunc (mul (product 1000%Z) (double_of_int 1000)) = (-5526700)%Z).
Proof.
  cbv zeta.
  assert (Hl : length (repeat 0%Z 17640) = Z.to_nat (beep_num_samples 44100 400)).
  { rewrite repeat_length. reflexivity. }
  split; [exact Hl|].
  rewrite (ToneFacts.beep_samples_tone sin_series 44100 880 400 volume_0_6 _ Hl).
  change (beep_num_samples 44100 400) with 17640%Z.
  rewrite !ToneFacts.tone_nth by lia.
  repeat split; vm_compute; reflexivity.
Qed.

End ToneRounding.
